(** * Taylor propagation with J2 and constant thrust (pykep, kep_toolbox)

    A shallow embedding of
    [include/keplerian_toolbox/core_functions/propagate_taylor_J2.hpp]:
    the Taylor coefficient generator and the step of
    [propagate_taylor_J2_step], and the order and step controller of
    [propagate_taylor_J2].

    The source computes on [double].  The embedding is written over an
    interface [Double] that names every operation the source applies to a
    [double]; what depends on the control flow alone is proved for every
    implementation of the interface, and what depends on the laws of
    arithmetic is proved for [RDouble], the real numbers (exact arithmetic,
    without rounding, infinities or NaN).

    The source's [int] values ([order], [max_iter], [max_order], the
    tolerance exponents, the loop counters) are integers of [Z], and an
    [int] of the source is one of them between [INT_MIN] and [INT_MAX].
    The [int] arithmetic of the source is [n + 1], [n - 1], [n - j] and
    [order + 1] on counters, and [max_iter - 1], which overflows at
    [max_iter = INT_MIN]: the call is then outside what C++ defines. *)

From Stdlib Require Import ZArith List Bool QArith Reals Lra Lia.
From Stdlib Require Import Qreals Zfloor.
Import ListNotations.

Set Implicit Arguments.

(** ** The range of [int] *)

(** [int] has 32 bits on the platforms the library builds on. *)
Definition INT_MIN : Z := -2147483648.
Definition INT_MAX : Z := 2147483647.

(** ** The operations on [double] *)

Class Double : Type := {
  D : Type;
  dadd : D -> D -> D;          (* a + b *)
  dsub : D -> D -> D;          (* a - b *)
  dmul : D -> D -> D;          (* a * b *)
  ddiv : D -> D -> D;          (* a / b *)
  dneg : D -> D;               (* -a *)
  dsqrt : D -> D;              (* sqrt *)
  dabs : D -> D;               (* std::abs *)
  dlog : D -> D;               (* log *)
  dceil : D -> D;              (* ceil *)
  dpow : D -> D -> D;          (* pow *)
  dltb : D -> D -> bool;       (* a < b *)
  dleb : D -> D -> bool;       (* a <= b *)
  dlit : Q -> D;               (* a floating literal: 1., 0.5, 10. *)
  of_int : Z -> D;             (* the conversion of an int to double *)
  to_int : D -> Z;             (* the cast (int), as the integer it gives *)
  M_E : D                      (* the constant e of <cmath> *)
}.

Declare Scope dbl_scope.
Delimit Scope dbl_scope with dbl.
Notation "a + b" := (dadd a b) : dbl_scope.
Notation "a - b" := (dsub a b) : dbl_scope.
Notation "a * b" := (dmul a b) : dbl_scope.
Notation "a / b" := (ddiv a b) : dbl_scope.
Notation "- a" := (dneg a) : dbl_scope.
Notation "a <? b" := (dltb a b) : dbl_scope.
Notation "a <=? b" := (dleb a b) : dbl_scope.

(** ** Indexed updates of a [std::vector] of [std::array] *)

Fixpoint update {A : Type} (i : nat) (f : A -> A) (l : list A) : list A :=
  match l, i with
  | [], _ => []
  | a :: l', O => f a :: l'
  | a :: l', S i' => a :: update i' f l'
  end.

Section Propagator.

Context {DBL : Double}.
Local Open Scope dbl_scope.

(** The conversion of a loop counter, an [int] that is never negative. *)
Definition of_nat (n : nat) : D := of_int (Z.of_nat n).

(** [std::max] and [std::min] as <algorithm> defines them:
    [max(a,b)] is [(a < b) ? b : a] and [min(a,b)] is [(b < a) ? b : a]. *)
Definition dmax (a b : D) : D := if a <? b then b else a.
Definition dmin (a b : D) : D := if b <? a then b else a.

(** [a > b] is [b < a], and [a >= b] is [b <= a]. *)
Definition dgtb (a b : D) : bool := b <? a.
Definition dgeb (a b : D) : bool := b <=? a.

(** A table is [std::vector<std::array<double, W>>], indexed [t[n][k]]:
    the row [n] is the order, the column [k] the variable.  The source
    reads and writes inside the tables it has allocated; outside them C++
    leaves the behaviour undefined, here a read gives 0 and a write is
    dropped, and [propagate_taylor_J2_step] reports the orders at which
    the source would leave its tables. *)
Definition row : Type := list D.
Definition table : Type := list row.

Definition get (t : table) (n k : nat) : D := nth k (nth n t []) (of_int 0).
Definition set (t : table) (n k : nat) (v : D) : table :=
  update n (update k (fun _ => v)) t.

(** [for (int j = lo; j < lo + len; ++j) body] over a state [S]. *)
Definition for_range {S : Type} (lo len : nat) (body : nat -> S -> S) (s : S) : S :=
  fold_left (fun s j => body j s) (seq lo len) s.

(** A statement on the table [u]: the table after it, from the table
    before it.  [u[n][k] ::= e] is the assignment [u[n][k] = e], where [e]
    reads the table as it is when the statement runs, and [s1 ;; s2] runs
    [s1] and then [s2]. *)
Definition stmt : Type := table -> table.
Definition assign (n k : nat) (e : table -> D) : stmt :=
  fun u => set u n k (e u).
Definition then_ (s1 s2 : stmt) : stmt := fun u => s2 (s1 u).

Notation "'u[' n '][' k ']' '::=' e" := (assign n k e)
  (at level 60, n at level 9, k at level 9, e at level 9, only parsing).
Notation "s1 ;; s2" := (then_ s1 s2) (at level 61, right associativity).

(** [u[n][c] += u[j][a] * u[n - j][b]], one pass of a Cauchy product. *)
Definition conv_step (n c a b : nat) (j : nat) (u : table) : table :=
  set u n c (get u n c + get u j a * get u (n - j) b).

(** [for (int j = 0; j <= n; j++) u[n][c] += u[j][a] * u[n - j][b];] *)
Definition conv (n c a b : nat) (u : table) : table :=
  for_range 0 (n + 1) (conv_step n c a b) u.

(** The recurrence of a power [f^e] of a series [f = u[.][a]], kept in
    [u[.][c]], for [n > 0]:
    [for (j = 0; j < n; ++j) u[n][c] += (e * n - j * (e + one)) * u[n - j][a] * u[j][c];
     u[n][c] /= n * u[0][a];] *)
Definition pow_step (e one : D) (n c a : nat) (j : nat) (u : table) : table :=
  set u n c
    (get u n c + (e * of_nat n - of_nat j * (e + one)) * get u (n - j) a * get u j c).

Definition pow_rec (e one : D) (n c a : nat) (u : table) : table :=
  let u := for_range 0 n (pow_step e one n c a) u in
  set u n c (get u n c / (of_nat n * get u 0 a)).

Section Generator.

Variable thrust0 thrust1 thrust2 : D.
Variables mu veff J2RG2 : D.

Definition alpha : D := - dlit (3 # 2).   (* double alpha = -1.5 *)
Definition beta : D := - dlit 1.          (* double beta = -1. *)

(** [sqrtT], the Euclidean norm of the thrust (line 59). *)
Definition sqrtT : D :=
  dsqrt (thrust0 * thrust0 + thrust1 * thrust1 + thrust2 * thrust2).

(** Lines 61-135 of the loop body: the 34 auxiliary slots of order [n],
    one statement after the other on the table [u]. *)
Definition gen_u (n : nat) (x : table) : stmt :=
  u[n][0] ::= (fun _ => get x n 0) ;;
  u[n][1] ::= (fun _ => get x n 1) ;;
  u[n][2] ::= (fun _ => get x n 2) ;;
  u[n][3] ::= (fun _ => get x n 3) ;;
  u[n][4] ::= (fun _ => get x n 4) ;;
  u[n][5] ::= (fun _ => get x n 5) ;;
  u[n][6] ::= (fun _ => get x n 6) ;;
  conv n 7 0 0 ;;
  conv n 8 1 1 ;;
  conv n 9 2 2 ;;
  u[n][10] ::= (fun u => get u n 7 + get u n 8) ;;
  u[n][11] ::= (fun u => get u n 10 + get u n 9) ;;
  (if Nat.eqb n 0
   then u[n][12] ::=
          (fun u => dsqrt (dlit 1 / (get u n 11 * get u n 11 * get u n 11)))
   else pow_rec alpha (of_int 1) n 12 11) ;;
  u[n][13] ::= (fun u => - get u n 12 * mu) ;;
  conv n 14 0 13 ;;
  conv n 15 1 13 ;;
  conv n 16 2 13 ;;
  (if Nat.eqb n 0
   then u[n][17] ::= (fun u => dlit 1 / get u 0 6)
   else pow_rec beta (dlit 1) n 17 6) ;;
  u[n][18] ::= (fun _ => if Nat.eqb n 0 then dlit 1 else dlit 0) ;;
  (if Nat.eqb n 0
   then u[n][19] ::= (fun u => dlit 1 / get u 0 11)
   else pow_rec beta (dlit 1) n 19 11) ;;
  u[n][20] ::= (fun u => dlit 3 / dlit 2 * J2RG2 * get u n 19) ;;
  conv n 21 9 19 ;;
  u[n][22] ::= (fun u => get u n 18 - of_int 5 * get u n 21) ;;
  conv n 23 20 22 ;;
  u[n][24] ::= (fun u => of_int 3 * get u n 18 - of_int 5 * get u n 21) ;;
  conv n 25 20 24 ;;
  u[n][26] ::= (fun u => get u n 18 + get u n 23) ;;
  u[n][27] ::= (fun u => get u n 18 + get u n 25) ;;
  conv n 28 14 26 ;;
  conv n 29 15 26 ;;
  conv n 30 16 27 ;;
  u[n][31] ::= (fun u => get u n 28 + get u n 17 * thrust0) ;;
  u[n][32] ::= (fun u => get u n 29 + get u n 17 * thrust1) ;;
  u[n][33] ::= (fun u => get u n 30 + get u n 17 * thrust2).

(** Lines 138-144: the state coefficients of order [n + 1]. *)
Definition gen_x (n : nat) (x u : table) : table :=
  let x := set x (n + 1) 0 (dlit 1 / of_nat (n + 1) * get u n 3) in
  let x := set x (n + 1) 1 (dlit 1 / of_nat (n + 1) * get u n 4) in
  let x := set x (n + 1) 2 (dlit 1 / of_nat (n + 1) * get u n 5) in
  let x := set x (n + 1) 3 (dlit 1 / of_nat (n + 1) * get u n 31) in
  let x := set x (n + 1) 4 (dlit 1 / of_nat (n + 1) * get u n 32) in
  let x := set x (n + 1) 5 (dlit 1 / of_nat (n + 1) * get u n 33) in
  let x := set x (n + 1) 6 (if Nat.eqb n 0 then - sqrtT / veff else of_int 0) in
  x.

(** One pass of [while (n < order) { ... n++; }] at the counter [n]. *)
Definition gen_body (n : nat) (xu : table * table) : table * table :=
  let u := gen_u n (fst xu) (snd xu) in
  (gen_x n (fst xu) u, u).

(** The whole loop, from [n = 0] while [n < order]. *)
Definition taylor_coefficients (order : nat) (xu : table * table) : table * table :=
  for_range 0 order gen_body xu.

End Generator.

(** ** The state and one step: [propagate_taylor_J2_step] *)

(** The template parameter [T]: three components read and written with
    [operator[]]. *)
Record vec3 : Type := Vec3 { c0 : D; c1 : D; c2 : D }.

(** What the caller owns and the propagator mutates in place:
    [r0], [v0] and [m0]. *)
Record state : Type := State { r0 : vec3; v0 : vec3; m0 : D }.

(** Lines 47-53: the initial conditions go to [x[0]]. *)
Definition init_x (s : state) (x : table) : table :=
  let x := set x 0 0 (c0 (r0 s)) in
  let x := set x 0 1 (c1 (r0 s)) in
  let x := set x 0 2 (c2 (r0 s)) in
  let x := set x 0 3 (c0 (v0 s)) in
  let x := set x 0 4 (c1 (v0 s)) in
  let x := set x 0 5 (c2 (v0 s)) in
  let x := set x 0 6 (m0 s) in
  x.

(** Lines 155-160 and 163-168: the infinity norm of the row [x[n]]. *)
Definition norm_row (x : table) (n : nat) : D :=
  let m := dmax (dabs (get x n 0)) (dabs (get x n 1)) in
  let m := dmax m (dabs (get x n 2)) in
  let m := dmax m (dabs (get x n 3)) in
  let m := dmax m (dabs (get x n 4)) in
  let m := dmax m (dabs (get x n 5)) in
  let m := dmax m (dabs (get x n 6)) in
  m.

(** Lines 170-174: the estimate [rho_m] of the radius of convergence. *)
Definition rho_m (xm eps_a eps_r xm_n xm_n1 : D) (n : nat) : D :=
  if eps_r * xm <? eps_a
  then dmin (dpow (of_int 1 / xm_n) (dlit 1 / of_nat n))
            (dpow (of_int 1 / xm_n1) (dlit 1 / of_int (Z.of_nat n - 1)))
  else dmin (dpow (xm / xm_n) (dlit 1 / of_nat n))
            (dpow (xm / xm_n1) (dlit 1 / of_int (Z.of_nat n - 1))).

(** Line 175: [step = rho_m / (M_E * M_E)]. *)
Definition candidate_step (xm eps_a eps_r xm_n xm_n1 : D) (n : nat) : D :=
  rho_m xm eps_a eps_r xm_n xm_n1 n / (M_E * M_E).

(** Lines 177-178:
    [if (h < 0) step = -step; if (std::abs(step) > std::abs(h)) step = h;] *)
Definition clamp_step (h step : D) : D :=
  let step := if h <? of_int 0 then - step else step in
  if dgtb (dabs step) (dabs h) then h else step.

(** Lines 183-189, one pass of the summation at [j], on [r0], [v0] and
    [steppow]. *)
Definition horner_step (x : table) (step : D) (j : nat)
    (acc : vec3 * vec3 * D) : vec3 * vec3 * D :=
  let '(r, v, steppow) := acc in
  (Vec3 (c0 r + get x j 0 * steppow)
        (c1 r + get x j 1 * steppow)
        (c2 r + get x j 2 * steppow),
   Vec3 (c0 v + get x j 3 * steppow)
        (c1 v + get x j 4 * steppow)
        (c2 v + get x j 5 * steppow),
   steppow * step).

(** Lines 181-191: the sum of the series and the update of the mass. *)
Definition advance (s : state) (x : table) (order : nat) (step : D) : state :=
  let '(r, v, _) :=
    for_range 1 order (horner_step x step) (r0 s, v0 s, step) in
  State r v (m0 s + get x 1 6 * step).

(** [propagate_taylor_J2_step]: the step taken and the state after it.
    [x] and [u] are the caller's scratch tables, which the caller assigns
    anew before every call; what the step leaves in them is not carried
    further.  At [order < 1] the source reads [x[n - 1]] with [n = 0] (and
    [x[1]] of a one-row table): no result. *)
Definition propagate_taylor_J2_step (s : state) (h : D) (order : Z)
    (thrust : vec3) (mu veff J2RG2 xm eps_a eps_r : D) (x u : table)
    : option (D * state) :=
  if (order <? 1)%Z then None else
  let n := Z.to_nat order in
  let x := init_x s x in
  let '(x, u) :=
    taylor_coefficients (c0 thrust) (c1 thrust) (c2 thrust) mu veff J2RG2
      n (x, u) in
  let xm_n := norm_row x n in
  let xm_n1 := norm_row x (n - 1) in
  let step := candidate_step xm eps_a eps_r xm_n xm_n1 n in
  let step := clamp_step h step in
  Some (step, advance s x n step).

(** ** The controller: [propagate_taylor_J2] *)

(** The two [value_error]s of the source: "Polynomial order is too
    high....." and "Maximum number of iteration reached". *)
Inductive error : Type := OrderExceeded | IterationLimitExceeded.

(** How a call ends: it returns with the state mutated in place, it throws
    with the state as mutated up to then, or it has left what C++ defines. *)
Inductive outcome : Type :=
| Returns (s : state)
| Throws (e : error) (s : state)
| Undefined.

(** Lines 251-256: the infinity norm of the state. *)
Definition state_norm (s : state) : D :=
  let xm := dmax (dabs (c0 (r0 s))) (dabs (c1 (r0 s))) in
  let xm := dmax xm (dabs (c2 (r0 s))) in
  let xm := dmax xm (dabs (c0 (v0 s))) in
  let xm := dmax xm (dabs (c1 (v0 s))) in
  let xm := dmax xm (dabs (c2 (v0 s))) in
  let xm := dmax xm (dabs (m0 s)) in
  xm.

(** Lines 233-238: the rows of zeros [dumb] and [dumb2]. *)
Definition dumb : row := repeat (of_int 0) 7.
Definition dumb2 : row := repeat (of_int 0) 34.

Section Controller.

Variable u : vec3.                             (* the thrust *)
Variables mu veff J2RG2 : D.
Variables log10tolerance log10rtolerance : Z.
Variables max_iter max_order : Z.

Definition eps_a : D := dpow (dlit 10) (of_int log10tolerance).
Definition eps_r : D := dpow (dlit 10) (of_int log10rtolerance).

(** Line 259: [(eps_r * xm < eps_a) ? eps_m = eps_a : eps_m = eps_r]. *)
Definition select_eps_m (xm : D) : D :=
  if eps_r * xm <? eps_a then eps_a else eps_r.

(** Line 260: [(int)(ceil(-0.5 * log(eps_m) + 1))]. *)
Definition select_order (eps_m : D) : Z :=
  to_int (dceil (- dlit (1 # 2) * dlog eps_m + of_int 1)).

(** How one pass of the body of the [for] loop ends. [h] is the step the
    pass took. *)
Inductive iter_result : Type :=
| IterThrow (e : error)
| IterUndefined
| IterBreak (s : state) (h : D)
| IterNext (s : state) (step h : D).

(** Lines 251-271: one pass, from the state [s] with [step] left to go. *)
Definition iteration (s : state) (step : D) : iter_result :=
  let xm := state_norm s in
  let eps_m := select_eps_m xm in
  let order := select_order eps_m in
  if (order >? max_order)%Z then IterThrow OrderExceeded else
  let _x := repeat dumb (Z.to_nat (order + 1)) in
  let _u := repeat dumb2 (Z.to_nat order) in
  match propagate_taylor_J2_step s step order u mu veff J2RG2 xm eps_a eps_r _x _u with
  | None => IterUndefined
  | Some (h, s') =>
      if dgeb (dabs h) (dabs step) then IterBreak s' h
      else IterNext s' (step - h) h
  end.

(** How the [for] loop ends: it is left with the counter [j] (by [break],
    or because [j < max_iter] fails), or a pass throws.  [hs] records the
    steps taken, the latest first; the source keeps each only in the local
    [h] of its pass. *)
Inductive loop_result : Type :=
| LoopExit (j : Z) (s : state) (hs : list D)
| LoopThrow (e : error) (s : state) (hs : list D)
| LoopUndefined.

(** [for (j = ...; j < max_iter; ++j) { ... }], with [fuel] the number of
    passes for which [j < max_iter] still holds. *)
Fixpoint for_loop (fuel : nat) (j : Z) (s : state) (step : D) (hs : list D)
    : loop_result :=
  match fuel with
  | O => LoopExit j s hs
  | S fuel' =>
      match iteration s step with
      | IterThrow e => LoopThrow e s hs
      | IterUndefined => LoopUndefined
      | IterBreak s' h => LoopExit j s' (h :: hs)
      | IterNext s' step' h => for_loop fuel' (j + 1) s' step' (h :: hs)
      end
  end.

(** The loop of a call: [j = 0], [step = t0], while [j < max_iter]. *)
Definition run (s : state) (t0 : D) : loop_result :=
  for_loop (Z.to_nat max_iter) 0 s t0 [].

(** [propagate_taylor_J2]: a [void] function; the caller gets the state
    back through the references [r0], [v0] and [m0].  Line 273,
    [if (j > max_iter - 1) throw ...], runs when the loop is left without
    a throw; its [max_iter - 1] is [int] arithmetic, and overflows when
    [max_iter] is [INT_MIN]. *)
Definition propagate_taylor_J2 (s : state) (t0 : D) : outcome :=
  match run s t0 with
  | LoopExit j s' _ =>
      if (max_iter - 1 <? INT_MIN)%Z then Undefined
      else if (j >? max_iter - 1)%Z then Throws IterationLimitExceeded s'
      else Returns s'
  | LoopThrow e s' _ => Throws e s'
  | LoopUndefined => Undefined
  end.

(** The steps a call has taken, the latest first. *)
Definition steps_taken (s : state) (t0 : D) : list D :=
  match run s t0 with
  | LoopExit _ _ hs => hs
  | LoopThrow _ _ hs => hs
  | LoopUndefined => []
  end.

(** The state and the duration left before the pass [k] of a call, when
    the passes before it have all gone on to the next. *)
Fixpoint before_pass (k : nat) (s : state) (step : D) : option (state * D) :=
  match k with
  | O => Some (s, step)
  | S k' =>
      match iteration s step with
      | IterNext s' step' _ => before_pass k' s' step'
      | _ => None
      end
  end.

End Controller.

End Propagator.

(** ** Exact arithmetic: the real numbers as [double] *)

Definition Rltb (a b : R) : bool := if Rlt_dec a b then true else false.
Definition Rleb (a b : R) : bool := if Rle_dec a b then true else false.

(** [pow] on the reals: [pow(0, y)] is 0 for [y > 0] and [pow(x, 0)] is 1;
    for a positive base it is [exp (y * ln x)].  Where the C function
    gives an infinity or NaN (a zero base with a negative exponent, a
    negative base) no real is right, and the value follows the
    conventions of the library ([/ 0 = 0], [ln x = 0] for [x <= 0]). *)
Definition Rpow (x y : R) : R :=
  if Req_dec_T x 0 then (if Req_dec_T y 0 then 1%R else 0%R) else Rpower x y.

(** The cast [(int)]: truncation towards zero.  The source's cast is
    defined when the truncation is between [INT_MIN] and [INT_MAX]; the
    theorems that state the outcome of a call bound the order it casts
    (by an [int] [max_order], or by bounds on the tolerance exponents). *)
Definition Rtrunc (x : R) : Z := if Rle_dec 0 x then Zfloor x else Zceil x.

(** The reals as [double]: exact arithmetic.  The reals have no infinity
    and no NaN, so [RDouble] parts from [double] where the source divides
    by zero ([Rdiv] gives [x / 0 = 0]), takes [pow] outside the reals, or
    casts a value that no [int] holds.  In the step these are: the
    exponent [1. / (n - 1)] at the order 1; a norm [xm_n] or [xm_n1], a
    mass, a radius or a [veff] of 0.  A theorem whose conclusion depends
    on one of these values carries the hypothesis that excludes it; the
    others hold whatever the value is. *)
#[export] Instance RDouble : Double := {|
  D := R;
  dadd := Rplus;
  dsub := Rminus;
  dmul := Rmult;
  ddiv := Rdiv;
  dneg := Ropp;
  dsqrt := sqrt;
  dabs := Rabs;
  dlog := ln;
  dceil := fun x => IZR (Zceil x);
  dpow := Rpow;
  dltb := Rltb;
  dleb := Rleb;
  dlit := Q2R;
  of_int := IZR;
  to_int := Rtrunc;
  M_E := exp 1
|}.

(** * Properties *)

(** ** Lists updated by index *)

Lemma update_length {A} (f : A -> A) (l : list A) (i : nat) :
  length (update i f l) = length l.
Proof.
  revert i; induction l as [|a l IH]; intros [|i]; simpl; auto.
Qed.

Lemma nth_update_same {A} (f : A -> A) (d : A) (l : list A) (i : nat) :
  f d = d -> nth i (update i f l) d = f (nth i l d).
Proof.
  intros Hd; revert i; induction l as [|a l IH]; intros [|i]; simpl; auto.
Qed.

Lemma nth_update_other {A} (f : A -> A) (d : A) (l : list A) (i j : nat) :
  i <> j -> nth j (update i f l) d = nth j l d.
Proof.
  revert i j; induction l as [|a l IH]; intros [|i] [|j] H; simpl; auto.
  congruence.
Qed.

Lemma nth_update_const {A} (v d : A) (l : list A) (i : nat) :
  (i < length l)%nat -> nth i (update i (fun _ => v) l) d = v.
Proof.
  revert i; induction l as [|a l IH]; intros [|i] H; simpl in *; try lia; auto.
  apply IH; lia.
Qed.

Lemma firstn_update {A} (f : A -> A) (l : list A) (i m : nat) :
  firstn m (update i f l) = update i f (firstn m l).
Proof.
  revert i m; induction l as [|a l IH]; intros [|i] [|m]; simpl; auto.
  now rewrite IH.
Qed.

Lemma nth_firstn_lt {A} (d : A) (l : list A) (i m : nat) :
  (i < m)%nat -> nth i (firstn m l) d = nth i l d.
Proof.
  revert i m; induction l as [|a l IH]; intros i m H.
  - now rewrite firstn_nil.
  - destruct m as [|m]; [lia|]. destruct i as [|i]; simpl; auto.
    apply IH; lia.
Qed.

Lemma for_range_S {S : Type} (lo len : nat) (body : nat -> S -> S) (s : S) :
  for_range lo (Datatypes.S len) body s = body (lo + len)%nat (for_range lo len body s).
Proof.
  unfold for_range. rewrite seq_S, fold_left_app. reflexivity.
Qed.

(** An invariant kept by every pass is kept by the loop. *)
Lemma for_range_ind {S : Type} (P : S -> Prop) (lo len : nat)
    (body : nat -> S -> S) (s : S) :
  P s ->
  (forall j s, (lo <= j < lo + len)%nat -> P s -> P (body j s)) ->
  P (for_range lo len body s).
Proof.
  intros H0 Hstep. induction len as [|len IH].
  - exact H0.
  - rewrite for_range_S. apply Hstep; [lia|]. apply IH.
    intros j s' Hj. apply Hstep. lia.
Qed.

(** Two runs of a loop whose passes keep a relation end in the relation. *)
Lemma for_range_rel {S : Type} (Rel : S -> S -> Prop) (lo len : nat)
    (body1 body2 : nat -> S -> S) (s1 s2 : S) :
  Rel s1 s2 ->
  (forall j a b, (lo <= j < lo + len)%nat -> Rel a b -> Rel (body1 j a) (body2 j b)) ->
  Rel (for_range lo len body1 s1) (for_range lo len body2 s2).
Proof.
  intros H0 Hstep. induction len as [|len IH].
  - exact H0.
  - rewrite !for_range_S. apply Hstep; [lia|]. apply IH.
    intros j a b Hj. apply Hstep. lia.
Qed.

(** ** Tables *)

Section TableFacts.

Context {DBL : Double}.
Local Open Scope dbl_scope.

Lemma row_set_same (t : table) (n k : nat) (v : D) :
  nth n (set t n k v) [] = update k (fun _ => v) (nth n t []).
Proof. unfold set. apply nth_update_same. now destruct k. Qed.

Lemma row_set_other (t : table) (n k i : nat) (v : D) :
  n <> i -> nth i (set t n k v) [] = nth i t [].
Proof. unfold set. now apply nth_update_other. Qed.

Lemma row_length_set (t : table) (n k i : nat) (v : D) :
  length (nth i (set t n k v) []) = length (nth i t []).
Proof.
  destruct (Nat.eq_dec n i) as [->|Hne].
  - now rewrite row_set_same, update_length.
  - now rewrite row_set_other.
Qed.

Lemma get_set_same (t : table) (n k : nat) (v : D) :
  (k < length (nth n t []))%nat -> get (set t n k v) n k = v.
Proof.
  intros H. unfold get. rewrite row_set_same. now apply nth_update_const.
Qed.

(** A row of seven entries written at every column is the seven values. *)
Lemma update_all_7 (r : row) (a b c d e f g : D) :
  length r = 7%nat ->
  update 6 (fun _ => g) (update 5 (fun _ => f) (update 4 (fun _ => e)
    (update 3 (fun _ => d) (update 2 (fun _ => c) (update 1 (fun _ => b)
      (update 0 (fun _ => a) r)))))) = [a; b; c; d; e; f; g].
Proof.
  intros H.
  do 8 (destruct r as [|? r]; simpl in H; try discriminate).
  reflexivity.
Qed.

(** *** What [gen_x] writes *)

Section GenX.

Variables thrust0 thrust1 thrust2 veff : D.

Lemma gen_x_row (n : nat) (x u : table) :
  nth (n + 1) (gen_x thrust0 thrust1 thrust2 veff n x u) [] =
  update 6 (fun _ => if Nat.eqb n 0 then - sqrtT thrust0 thrust1 thrust2 / veff
                     else of_int 0)
   (update 5 (fun _ => dlit 1 / of_nat (n + 1) * get u n 33)
   (update 4 (fun _ => dlit 1 / of_nat (n + 1) * get u n 32)
   (update 3 (fun _ => dlit 1 / of_nat (n + 1) * get u n 31)
   (update 2 (fun _ => dlit 1 / of_nat (n + 1) * get u n 5)
   (update 1 (fun _ => dlit 1 / of_nat (n + 1) * get u n 4)
   (update 0 (fun _ => dlit 1 / of_nat (n + 1) * get u n 3)
      (nth (n + 1) x []))))))).
Proof. unfold gen_x. cbv zeta. now rewrite !row_set_same. Qed.

Lemma gen_x_other (n i : nat) (x u : table) :
  i <> (n + 1)%nat ->
  nth i (gen_x thrust0 thrust1 thrust2 veff n x u) [] = nth i x [].
Proof.
  intros H. unfold gen_x. cbv zeta.
  rewrite !row_set_other by congruence. reflexivity.
Qed.

Lemma gen_x_row_length (n i : nat) (x u : table) :
  length (nth i (gen_x thrust0 thrust1 thrust2 veff n x u) []) =
  length (nth i x []).
Proof. unfold gen_x. cbv zeta. now rewrite !row_length_set. Qed.

Lemma gen_x_mass (n : nat) (x u : table) :
  (6 < length (nth (n + 1) x []))%nat ->
  get (gen_x thrust0 thrust1 thrust2 veff n x u) (n + 1) 6 =
  if Nat.eqb n 0 then - sqrtT thrust0 thrust1 thrust2 / veff else of_int 0.
Proof.
  intros H. unfold gen_x. cbv zeta. apply get_set_same.
  now rewrite !row_length_set.
Qed.

End GenX.

(** *** The mass column after the generator *)

Section MassColumn.

Variables thrust0 thrust1 thrust2 mu veff J2RG2 : D.

Let coeffs := taylor_coefficients thrust0 thrust1 thrust2 mu veff J2RG2.

Lemma gen_body_fst (n : nat) (xu : table * table) :
  fst (gen_body thrust0 thrust1 thrust2 mu veff J2RG2 n xu) =
  gen_x thrust0 thrust1 thrust2 veff n (fst xu)
    (gen_u thrust0 thrust1 thrust2 mu J2RG2 n (fst xu) (snd xu)).
Proof. reflexivity. Qed.

Lemma gen_body_snd (n : nat) (xu : table * table) :
  snd (gen_body thrust0 thrust1 thrust2 mu veff J2RG2 n xu) =
  gen_u thrust0 thrust1 thrust2 mu J2RG2 n (fst xu) (snd xu).
Proof. reflexivity. Qed.

Lemma taylor_coefficients_S (N : nat) (xu : table * table) :
  coeffs (S N) xu =
  gen_body thrust0 thrust1 thrust2 mu veff J2RG2 N (coeffs N xu).
Proof. unfold coeffs, taylor_coefficients. now rewrite for_range_S. Qed.

Lemma coeffs_row_length (N i : nat) (xu : table * table) :
  length (nth i (fst (coeffs N xu)) []) = length (nth i (fst xu) []).
Proof.
  induction N as [|N IH]; [reflexivity|].
  rewrite taylor_coefficients_S, gen_body_fst.
  now rewrite gen_x_row_length.
Qed.

Lemma coeffs_mass (N k : nat) (xu : table * table) :
  (1 <= k <= N)%nat ->
  (6 < length (nth k (fst xu) []))%nat ->
  get (fst (coeffs N xu)) k 6 =
  if Nat.eqb k 1 then - sqrtT thrust0 thrust1 thrust2 / veff else of_int 0.
Proof.
  induction N as [|N IH]; intros Hk Hw; [lia|].
  rewrite taylor_coefficients_S, gen_body_fst.
  destruct (Nat.eq_dec k (N + 1)) as [->|Hne].
  - rewrite gen_x_mass by now rewrite coeffs_row_length.
    destruct N as [|N']; [reflexivity|].
    replace (S N' + 1)%nat with (S (S N')) by lia. reflexivity.
  - unfold get. rewrite gen_x_other by assumption.
    apply IH; [lia|assumption].
Qed.

End MassColumn.

End TableFacts.

(** ** Causality of the recurrences

    Two tables agree up to the order [n] when their rows [0..n] are the
    same.  Every statement of the pass [n] of the generator keeps the
    agreement of two [u] tables, whatever the rows above [n] hold: it
    writes in the row [n] a value read from rows [0..n]. *)

Section Causality.

Context {DBL : Double}.
Local Open Scope dbl_scope.

Definition agree (n : nat) (a b : table) : Prop :=
  firstn (S n) a = firstn (S n) b.

Lemma agree_row (n j : nat) (a b : table) :
  agree n a b -> (j <= n)%nat -> nth j a [] = nth j b [].
Proof.
  intros H Hj. unfold agree in H.
  assert (E : forall t : table, nth j t [] = nth j (firstn (S n) t) [])
    by (intros t; symmetry; apply nth_firstn_lt; lia).
  now rewrite (E a), (E b), H.
Qed.

Lemma agree_get (n j k : nat) (a b : table) :
  agree n a b -> (j <= n)%nat -> get a j k = get b j k.
Proof. intros H Hj. unfold get. now rewrite (agree_row H Hj). Qed.

Lemma agree_set (n i k : nat) (a b : table) (v w : D) :
  agree n a b -> v = w -> agree n (set a i k v) (set b i k w).
Proof.
  unfold agree, set. intros H ->. now rewrite !firstn_update, H.
Qed.

Lemma agree_conv (n c p q : nat) (a b : table) :
  agree n a b -> agree n (conv n c p q a) (conv n c p q b).
Proof.
  intros H. unfold conv. apply for_range_rel; [exact H|].
  intros j a' b' Hj Hab. unfold conv_step. apply agree_set; [exact Hab|].
  rewrite (agree_get c Hab (j := n)) by lia.
  rewrite (agree_get p Hab (j := j)) by lia.
  rewrite (agree_get q Hab (j := (n - j)%nat)) by lia.
  reflexivity.
Qed.

Lemma agree_pow_rec (e one : D) (n c p : nat) (a b : table) :
  agree n a b -> agree n (pow_rec e one n c p a) (pow_rec e one n c p b).
Proof.
  intros H. unfold pow_rec. cbv zeta.
  assert (Hloop : agree n (for_range 0 n (pow_step e one n c p) a)
                          (for_range 0 n (pow_step e one n c p) b)).
  { apply for_range_rel; [exact H|].
    intros j a' b' Hj Hab. unfold pow_step. apply agree_set; [exact Hab|].
    rewrite (agree_get c Hab (j := n)) by lia.
    rewrite (agree_get p Hab (j := (n - j)%nat)) by lia.
    rewrite (agree_get c Hab (j := j)) by lia.
    reflexivity. }
  apply agree_set; [exact Hloop|].
  rewrite (agree_get c Hloop (j := n)) by lia.
  rewrite (agree_get p Hloop (j := 0%nat)) by lia.
  reflexivity.
Qed.

(** A statement is causal at the order [n] when it keeps the agreement
    up to [n] of the tables it runs on. *)
Definition causal (n : nat) (s s' : stmt) : Prop :=
  forall a b, agree n a b -> agree n (s a) (s' b).

Lemma causal_then (n : nat) (s1 s2 s1' s2' : stmt) :
  causal n s1 s1' -> causal n s2 s2' -> causal n (then_ s1 s2) (then_ s1' s2').
Proof. intros H1 H2 a b Hab. unfold then_. apply H2, H1, Hab. Qed.

Lemma causal_assign (n k : nat) (e e' : table -> D) :
  (forall a b, agree n a b -> e a = e' b) ->
  causal n (assign n k e) (assign n k e').
Proof.
  intros He a b Hab. unfold assign. apply agree_set; [exact Hab|].
  now apply He.
Qed.

Lemma causal_conv (n c p q : nat) : causal n (conv n c p q) (conv n c p q).
Proof. intros a b. apply agree_conv. Qed.

Lemma causal_pow_rec (e one : D) (n c p : nat) :
  causal n (pow_rec e one n c p) (pow_rec e one n c p).
Proof. intros a b. apply agree_pow_rec. Qed.

Lemma causal_if (n : nat) (c : bool) (s1 s2 s1' s2' : stmt) :
  causal n s1 s1' -> causal n s2 s2' ->
  causal n (if c then s1 else s2) (if c then s1' else s2').
Proof. now destruct c. Qed.

(** A value built from reads of the rows [0..n] of two agreeing tables. *)
Ltac same_reads :=
  let a := fresh "a" in let b := fresh "b" in let Hab := fresh "Hab" in
  intros a b Hab;
  repeat match goal with
  | |- context [get a ?j ?k] => rewrite (agree_get k Hab (j := j)) by lia
  end; reflexivity.

Ltac causal_statement :=
  first
    [ apply causal_conv
    | apply causal_pow_rec
    | apply causal_assign; same_reads
    | apply causal_if; causal_statement ].

Lemma agree_gen_u (t0 t1 t2 mu J2RG2 : D) (n : nat) (x x' u u' : table) :
  nth n x [] = nth n x' [] -> agree n u u' ->
  agree n (gen_u t0 t1 t2 mu J2RG2 n x u) (gen_u t0 t1 t2 mu J2RG2 n x' u').
Proof.
  intros Hx. revert u u'.
  change (causal n (gen_u t0 t1 t2 mu J2RG2 n x) (gen_u t0 t1 t2 mu J2RG2 n x')).
  assert (Hg : forall k, get x n k = get x' n k)
    by (intros k; unfold get; now rewrite Hx).
  unfold gen_u. rewrite !Hg.
  repeat (apply causal_then; [causal_statement|]).
  causal_statement.
Qed.

(** *** The pass [n] writes in the row [n] of [u] only *)

Definition same_rows_but (n : nat) (a b : table) : Prop :=
  forall i, i <> n -> nth i a [] = nth i b [].

Lemma same_rows_but_set (n k : nat) (a b : table) (v : D) :
  same_rows_but n a b -> same_rows_but n (set a n k v) b.
Proof.
  intros H i Hi. rewrite row_set_other by congruence. now apply H.
Qed.

(** A statement that leaves the rows other than [n] as they are. *)
Definition writes_row (n : nat) (s : stmt) : Prop :=
  forall a b, same_rows_but n a b -> same_rows_but n (s a) b.

Lemma writes_row_then (n : nat) (s1 s2 : stmt) :
  writes_row n s1 -> writes_row n s2 -> writes_row n (then_ s1 s2).
Proof. intros H1 H2 a b Hab. unfold then_. apply H2, H1, Hab. Qed.

Lemma writes_row_assign (n k : nat) (e : table -> D) :
  writes_row n (assign n k e).
Proof. intros a b Hab. unfold assign. now apply same_rows_but_set. Qed.

Lemma writes_row_conv (n c p q : nat) : writes_row n (conv n c p q).
Proof.
  intros a b H. unfold conv.
  apply (for_range_ind (fun t => same_rows_but n t b)); [exact H|].
  intros j t _ Ht. now apply same_rows_but_set.
Qed.

Lemma writes_row_pow_rec (e one : D) (n c p : nat) :
  writes_row n (pow_rec e one n c p).
Proof.
  intros a b H. unfold pow_rec. cbv zeta. apply same_rows_but_set.
  apply (for_range_ind (fun t => same_rows_but n t b)); [exact H|].
  intros j t _ Ht. now apply same_rows_but_set.
Qed.

Lemma writes_row_if (n : nat) (c : bool) (s1 s2 : stmt) :
  writes_row n s1 -> writes_row n s2 -> writes_row n (if c then s1 else s2).
Proof. now destruct c. Qed.

Ltac row_statement :=
  first
    [ apply writes_row_conv
    | apply writes_row_pow_rec
    | apply writes_row_assign
    | apply writes_row_if; row_statement ].

Lemma gen_u_other_rows (t0 t1 t2 mu J2RG2 : D) (n : nat) (x u : table) :
  same_rows_but n (gen_u t0 t1 t2 mu J2RG2 n x u) u.
Proof.
  assert (H : writes_row n (gen_u t0 t1 t2 mu J2RG2 n x)).
  { unfold gen_u.
    repeat (apply writes_row_then; [row_statement|]).
    row_statement. }
  apply H. intros i _. reflexivity.
Qed.

(** What the loop to the order [N] holds in [u[n]] and [x[n + 1]], for
    [n < N], is what its pass [n] has written there. *)
Lemma coeffs_stable (t0 t1 t2 mu veff J2RG2 : D) (N n : nat)
    (xu : table * table) :
  (n < N)%nat ->
  nth n (snd (taylor_coefficients t0 t1 t2 mu veff J2RG2 N xu)) [] =
  nth n (snd (taylor_coefficients t0 t1 t2 mu veff J2RG2 (S n) xu)) [] /\
  nth (n + 1) (fst (taylor_coefficients t0 t1 t2 mu veff J2RG2 N xu)) [] =
  nth (n + 1) (fst (taylor_coefficients t0 t1 t2 mu veff J2RG2 (S n) xu)) [].
Proof.
  induction N as [|N IH]; intros Hn; [lia|].
  destruct (Nat.eq_dec n N) as [->|Hne]; [split; reflexivity|].
  destruct IH as [IHu IHx]; [lia|].
  rewrite (taylor_coefficients_S t0 t1 t2 mu veff J2RG2 N).
  rewrite gen_body_fst, gen_body_snd. split.
  - rewrite gen_u_other_rows by lia. exact IHu.
  - rewrite gen_x_other by lia. exact IHx.
Qed.

End Causality.

(** ** The Taylor coefficient generator *)

Section GeneratorClaims.

Context {DBL : Double}.
Local Open Scope dbl_scope.

(** C4. For every order [N >= 1], after the generator has run on a table
    [x] whose rows [0..N] have seven entries each, the mass coefficient of
    order 1 is [x[1][6] = - sqrt(t0*t0 + t1*t1 + t2*t2) / veff], the
    Euclidean norm of the thrust over the effective exhaust velocity,
    negated, and [x[k][6] = 0] for every [k] with [2 <= k <= N]. *)
Theorem C4_mass_coefficients (t0 t1 t2 mu veff J2RG2 : D) (N : nat)
    (x u : table) :
  (1 <= N)%nat ->
  (forall k, (k <= N)%nat -> length (nth k x []) = 7%nat) ->
  get (fst (taylor_coefficients t0 t1 t2 mu veff J2RG2 N (x, u))) 1 6
    = - dsqrt (t0 * t0 + t1 * t1 + t2 * t2) / veff /\
  forall k, (2 <= k <= N)%nat ->
    get (fst (taylor_coefficients t0 t1 t2 mu veff J2RG2 N (x, u))) k 6
      = of_int 0.
Proof.
  intros HN Hrows. split.
  - rewrite (coeffs_mass t0 t1 t2 mu veff J2RG2 (N := N) (k := 1));
      change (fst (x, u)) with x.
    + reflexivity.
    + lia.
    + rewrite Hrows; lia.
  - intros k Hk.
    rewrite (coeffs_mass t0 t1 t2 mu veff J2RG2 (N := N) (k := k));
      change (fst (x, u)) with x.
    + destruct k as [|[|k]]; try lia. reflexivity.
    + lia.
    + rewrite Hrows; lia.
Qed.

(** The pass of order [n] reads the rows [0..n] only. *)
Lemma gen_body_causal (t0 t1 t2 mu veff J2RG2 : D) (n : nat)
    (x u x' u' : table) :
  firstn (S n) x = firstn (S n) x' ->
  firstn (S n) u = firstn (S n) u' ->
  length (nth (n + 1) x []) = 7%nat ->
  length (nth (n + 1) x' []) = 7%nat ->
  nth n (snd (gen_body t0 t1 t2 mu veff J2RG2 n (x, u))) [] =
  nth n (snd (gen_body t0 t1 t2 mu veff J2RG2 n (x', u'))) [] /\
  nth (n + 1) (fst (gen_body t0 t1 t2 mu veff J2RG2 n (x, u))) [] =
  nth (n + 1) (fst (gen_body t0 t1 t2 mu veff J2RG2 n (x', u'))) [].
Proof.
  intros Hx Hu Hw Hw'. rewrite !gen_body_fst, !gen_body_snd.
  change (fst (x, u)) with x; change (snd (x, u)) with u.
  change (fst (x', u')) with x'; change (snd (x', u')) with u'.
  assert (Hrow : nth n x [] = nth n x' [])
    by (apply (agree_row (n := n)); [exact Hx | lia]).
  pose proof (agree_gen_u t0 t1 t2 mu J2RG2 x x' Hrow Hu) as Hgen.
  split.
  - apply (agree_row (n := n)); [exact Hgen | lia].
  - rewrite !gen_x_row, !update_all_7 by assumption.
    now rewrite !(agree_get _ Hgen (j := n)) by lia.
Qed.

(** C7. For every target order [N >= 1] and every order [n] in
    [0..N-1], the auxiliary row [u[n]] (all its 34 slots) and the state
    coefficients [x[n + 1]] that the generator ends with are derived from
    entries of the orders [0..n] alone: the pass [n], started from any
    tables [x'] and [u'] that have the rows [0..n] the generator had when
    it reached the order [n], whatever they hold above, computes the same
    [u[n]] and the same [x[n + 1]]. *)
Theorem C7_causality (t0 t1 t2 mu veff J2RG2 : D) (N n : nat)
    (x u x' u' : table) :
  (n < N)%nat ->
  firstn (S n) (fst (taylor_coefficients t0 t1 t2 mu veff J2RG2 n (x, u)))
    = firstn (S n) x' ->
  firstn (S n) (snd (taylor_coefficients t0 t1 t2 mu veff J2RG2 n (x, u)))
    = firstn (S n) u' ->
  length (nth (n + 1) x []) = 7%nat ->
  length (nth (n + 1) x' []) = 7%nat ->
  nth n (snd (taylor_coefficients t0 t1 t2 mu veff J2RG2 N (x, u))) [] =
  nth n (snd (gen_body t0 t1 t2 mu veff J2RG2 n (x', u'))) [] /\
  nth (n + 1) (fst (taylor_coefficients t0 t1 t2 mu veff J2RG2 N (x, u))) [] =
  nth (n + 1) (fst (gen_body t0 t1 t2 mu veff J2RG2 n (x', u'))) [].
Proof.
  intros Hn Hx Hu Hw Hw'.
  destruct (coeffs_stable t0 t1 t2 mu veff J2RG2 (x, u) Hn) as [Su Sx].
  rewrite Su, Sx, (taylor_coefficients_S t0 t1 t2 mu veff J2RG2 n).
  destruct (taylor_coefficients t0 t1 t2 mu veff J2RG2 n (x, u))
    as [xn un] eqn:E.
  apply gen_body_causal; try assumption.
  change xn with (fst (xn, un)). rewrite <- E.
  now rewrite coeffs_row_length.
Qed.

End GeneratorClaims.

(** The tables the controller allocates at order 3, with the thrust
    (3, 4, 0) of norm 5; and at order 1, tables with other entries above
    the order 0. *)
Lemma C4_mass_coefficients_witness :
  get (fst (taylor_coefficients (DBL := RDouble) 3%R 4%R 0%R 1%R 2%R 0%R 3
              (repeat dumb 4, repeat dumb2 3))) 1 6
    = (- sqrt (3 * 3 + 4 * 4 + 0 * 0) / 2)%R /\
  forall k, (2 <= k <= 3)%nat ->
    get (fst (taylor_coefficients (DBL := RDouble) 3%R 4%R 0%R 1%R 2%R 0%R 3
                (repeat dumb 4, repeat dumb2 3))) k 6
      = 0%R.
Proof.
  apply (C4_mass_coefficients (DBL := RDouble) 3%R 4%R 0%R 1%R 2%R 0%R
           (N := 3) (repeat dumb 4) (repeat dumb2 3)).
  - lia.
  - intros [|[|[|[|k]]]] Hk; simpl; try reflexivity; lia.
Defined.

Lemma C7_causality_witness :
  nth 0 (snd (taylor_coefficients (DBL := RDouble) 1%R 0%R 0%R 1%R 1%R 0%R 1
                (repeat dumb 2, repeat dumb2 1))) [] =
  nth 0 (snd (gen_body (DBL := RDouble) 1%R 0%R 0%R 1%R 1%R 0%R 0
                ([dumb; repeat 1%R 7], [dumb2; repeat 1%R 34]))) [] /\
  nth (0 + 1) (fst (taylor_coefficients (DBL := RDouble) 1%R 0%R 0%R 1%R 1%R 0%R 1
                (repeat dumb 2, repeat dumb2 1))) [] =
  nth (0 + 1) (fst (gen_body (DBL := RDouble) 1%R 0%R 0%R 1%R 1%R 0%R 0
                ([dumb; repeat 1%R 7], [dumb2; repeat 1%R 34]))) [].
Proof.
  apply (C7_causality (DBL := RDouble) 1%R 0%R 0%R 1%R 1%R 0%R (N := 1) (n := 0));
    solve [lia | reflexivity].
Defined.

(** ** The loop of the controller *)

Section LoopFacts.

Context {DBL : Double}.
Local Open Scope dbl_scope.

Variable u : vec3.
Variables mu veff J2RG2 : D.
Variables log10tolerance log10rtolerance : Z.
Variables max_iter max_order : Z.

Let pass := iteration u mu veff J2RG2 log10tolerance log10rtolerance max_order.
Let loop := for_loop u mu veff J2RG2 log10tolerance log10rtolerance max_order.
Let before :=
  before_pass u mu veff J2RG2 log10tolerance log10rtolerance max_order.
Let call :=
  propagate_taylor_J2 u mu veff J2RG2 log10tolerance log10rtolerance
    max_iter max_order.

(** The only error a pass throws is [OrderExceeded], and it throws it
    exactly when the order selected is above [max_order]. *)
Lemma pass_throws (s : state) (step : D) (e : error) :
  pass s step = IterThrow e <->
  e = OrderExceeded /\
  (select_order
     (select_eps_m log10tolerance log10rtolerance (state_norm s))
   > max_order)%Z.
Proof.
  unfold pass, iteration. cbv zeta.
  destruct (Z.gtb_spec
    (select_order (select_eps_m log10tolerance log10rtolerance (state_norm s)))
    max_order) as [Hgt|Hle].
  - split; [intros [= <-]; split; [reflexivity|lia] | intros [-> _]; reflexivity].
  - split.
    + intros H.
      destruct (propagate_taylor_J2_step _ _ _ _ _ _ _ _ _ _ _ _) as [[h s']|];
        [destruct (dgeb _ _)|]; discriminate.
    + intros [_ H]. lia.
Qed.

(** The passes before the pass [k] have all gone on: the loop is then at
    the pass [k], with the counter [j + k]. *)
Lemma loop_reaches (k fuel : nat) (j : Z) (s sk : state) (step stepk : D)
    (hs : list D) :
  before k s step = Some (sk, stepk) ->
  exists hs', loop (k + fuel)%nat j s step hs
              = loop fuel (j + Z.of_nat k)%Z sk stepk hs'.
Proof.
  revert j s step hs. induction k as [|k IH]; intros j s step hs H.
  - injection H as <- <-. exists hs. now rewrite Z.add_0_r.
  - simpl in H. simpl plus. unfold loop; simpl for_loop; fold loop.
    fold pass in H |- *.
    destruct (pass s step) as [e| |s' h|s' step' h]; try discriminate.
    destruct (IH (j + 1)%Z s' step' (h :: hs) H) as [hs' Hhs'].
    exists hs'. rewrite Hhs'. f_equal. lia.
Qed.

(** Either all of the first [fuel] passes go on, or one of them is the
    first that does not. *)
Lemma first_stop (fuel : nat) (s : state) (step : D) :
  (exists sk stepk, before fuel s step = Some (sk, stepk)) \/
  (exists k sk stepk, (k < fuel)%nat /\ before k s step = Some (sk, stepk) /\
     forall s' step' h, pass sk stepk <> IterNext s' step' h).
Proof.
  revert s step. induction fuel as [|fuel IH]; intros s step.
  - left. exists s, step. reflexivity.
  - destruct (pass s step) as [e| |s' h|s' step' h] eqn:E.
    1-3: right; exists 0%nat, s, step;
      (split; [lia | split; [reflexivity | intros ? ? ?; rewrite E; discriminate]]).
    destruct (IH s' step') as [(sk & stepk & H)|(k & sk & stepk & Hk & H & Hstop)].
    + left. exists sk, stepk. simpl. fold pass. now rewrite E.
    + right. exists (S k), sk, stepk. split; [lia|]. split; [|exact Hstop].
      simpl. fold pass. now rewrite E.
Qed.

(** How a call ends, from the pass at which its loop stops. *)
Lemma call_exhausted (s s' : state) (t0 step' : D) :
  (INT_MIN < max_iter)%Z ->
  before (Z.to_nat max_iter) s t0 = Some (s', step') ->
  call s t0 = Throws IterationLimitExceeded s'.
Proof.
  intros Hint H. unfold call, propagate_taylor_J2, run. fold loop.
  destruct (@loop_reaches _ 0%nat 0%Z _ _ _ _ [] H) as [hs' Hhs'].
  rewrite Nat.add_0_r in Hhs'. rewrite Hhs'. unfold loop. simpl.
  destruct (Z.ltb_spec (max_iter - 1) INT_MIN); [lia|].
  destruct (Z.gtb_spec (Z.of_nat (Z.to_nat max_iter)) (max_iter - 1)); [reflexivity|lia].
Qed.

Lemma call_exhausted_or (s s' : state) (t0 step' : D) :
  before (Z.to_nat max_iter) s t0 = Some (s', step') ->
  call s t0 = Throws IterationLimitExceeded s' \/ call s t0 = Undefined.
Proof.
  intros H. unfold call, propagate_taylor_J2, run. fold loop.
  destruct (@loop_reaches _ 0%nat 0%Z _ _ _ _ [] H) as [hs' Hhs'].
  rewrite Nat.add_0_r in Hhs'. rewrite Hhs'. unfold loop. simpl.
  destruct (Z.ltb_spec (max_iter - 1) INT_MIN); [now right|left].
  destruct (Z.gtb_spec (Z.of_nat (Z.to_nat max_iter)) (max_iter - 1)); [reflexivity|lia].
Qed.

(** At [max_iter = INT_MIN], and below, no pass runs and line 273
    overflows. *)
Lemma call_overflows (s : state) (t0 : D) :
  (max_iter <= INT_MIN)%Z -> call s t0 = Undefined.
Proof.
  intros H. unfold call, propagate_taylor_J2, run.
  replace (Z.to_nat max_iter) with 0%nat by (unfold INT_MIN in H; lia).
  simpl. destruct (Z.ltb_spec (max_iter - 1) INT_MIN); [reflexivity|lia].
Qed.

Lemma call_stops (k : nat) (s sk : state) (t0 stepk : D) :
  (k < Z.to_nat max_iter)%nat ->
  before k s t0 = Some (sk, stepk) ->
  match pass sk stepk with
  | IterThrow e => call s t0 = Throws e sk
  | IterUndefined => call s t0 = Undefined
  | IterBreak s' h =>
      call s t0 = Returns s' /\
      exists hs,
        steps_taken u mu veff J2RG2 log10tolerance log10rtolerance
          max_iter max_order s t0 = h :: hs
  | IterNext _ _ _ => True
  end.
Proof.
  intros Hk H.
  destruct (@loop_reaches _ (Z.to_nat max_iter - k)%nat 0%Z _ _ _ _ [] H)
    as [hs' Hhs'].
  replace (k + (Z.to_nat max_iter - k))%nat with (Z.to_nat max_iter) in Hhs' by lia.
  unfold call, propagate_taylor_J2, steps_taken, run. fold loop. rewrite Hhs'.
  destruct (Z.to_nat max_iter - k)%nat as [|f] eqn:Ef; [lia|].
  unfold loop; simpl for_loop; fold loop; fold pass.
  destruct (pass sk stepk) as [e| |s' h|s' step' h]; try reflexivity; trivial.
  split; [|now exists hs'].
  destruct (Z.ltb_spec (max_iter - 1) INT_MIN); [unfold INT_MIN in *; lia|].
  destruct (Z.gtb_spec (Z.of_nat k) (max_iter - 1)); [lia|reflexivity].
Qed.


(** The steps recorded only grow, and the state moves only with them. *)
Lemma loop_steps (fuel : nat) (j : Z) (s : state) (step : D) (hs : list D) :
  match loop fuel j s step hs with
  | LoopExit _ s' hs' | LoopThrow _ s' hs' =>
      (length hs <= length hs')%nat /\ (length hs' = length hs -> s' = s)
  | LoopUndefined => True
  end.
Proof.
  revert j s step hs. induction fuel as [|fuel IH]; intros j s step hs.
  - simpl. split; [lia|reflexivity].
  - unfold loop; simpl for_loop; fold loop; fold pass.
    destruct (pass s step) as [e| |s' h|s' step' h]; trivial.
    + split; [lia|reflexivity].
    + simpl. split; [lia|intros; lia].
    + specialize (IH (j + 1)%Z s' step' (h :: hs)).
      destruct (loop fuel (j + 1)%Z s' step' (h :: hs)); trivial;
        simpl in IH; (split; [lia|intros; lia]).
Qed.

(** What a pass does when the order selected is within [max_order]. *)
Lemma pass_runs (s : state) (step : D) :
  let xm := state_norm s in
  let order :=
    select_order (select_eps_m log10tolerance log10rtolerance xm) in
  (order <= max_order)%Z ->
  pass s step =
  match
    propagate_taylor_J2_step s step order u mu veff J2RG2 xm
      (eps_a log10tolerance) (eps_r log10rtolerance)
      (repeat dumb (Z.to_nat (order + 1))) (repeat dumb2 (Z.to_nat order))
  with
  | None => IterUndefined
  | Some (h, s') =>
      if dgeb (dabs h) (dabs step) then IterBreak s' h
      else IterNext s' (step - h) h
  end.
Proof.
  intros xm order Hle. unfold pass, iteration. cbv zeta. fold xm. fold order.
  destruct (Z.gtb_spec order max_order); [lia|reflexivity].
Qed.

(** The first pass throws: the call throws on the state it was given. *)
Lemma call_order_exceeded_first (s : state) (t0 : D) :
  (1 <= max_iter)%Z ->
  (select_order (select_eps_m log10tolerance log10rtolerance (state_norm s))
   > max_order)%Z ->
  call s t0 = Throws OrderExceeded s.
Proof.
  intros Hge Hgt.
  assert (Hk : (0 < Z.to_nat max_iter)%nat) by lia.
  assert (H : before 0 s t0 = Some (s, t0)) by reflexivity.
  pose proof (@call_stops 0%nat s s t0 t0 Hk H) as Hend.
  assert (E : pass s t0 = IterThrow OrderExceeded)
    by (apply pass_throws; split; [reflexivity|exact Hgt]).
  now rewrite E in Hend.
Qed.

(** *** The order of a pass *)

(** C1. In every pass of [propagate_taylor_J2], with [xm] the infinity
    norm of the state, the largest of the magnitudes of its seven
    components [r0[0..2]], [v0[0..2]] and [m0] (the chain of [std::max]
    over [std::abs] of lines 251-256, where [max(a, b)] is
    [(a < b) ? b : a]), the target error [eps_m] is
    [eps_a = pow(10, log10tolerance)] when [eps_r * xm < eps_a] and
    [eps_r = pow(10, log10rtolerance)] otherwise, and the order is
    [(int) ceil(-0.5 * log(eps_m) + 1)]: the pass throws [OrderExceeded]
    exactly when this order is above [max_order], and runs the step at
    this very order, with this very [xm], otherwise.  The call fails with
    [OrderExceeded] exactly when a pass it reaches selects an order above
    [max_order], and it then throws with the state as it was before that
    pass: no step is taken in it and no pass follows. *)
Theorem C1_order_selection (s : state) (t0 : D) :
  let max := fun a b : D => if a <? b then b else a in
  let xm_at := fun sk : state =>
    max (max (max (max (max (max (dabs (c0 (r0 sk))) (dabs (c1 (r0 sk))))
                            (dabs (c2 (r0 sk))))
                       (dabs (c0 (v0 sk))))
                  (dabs (c1 (v0 sk))))
             (dabs (c2 (v0 sk))))
        (dabs (m0 sk)) in
  let ea := dpow (dlit 10) (of_int log10tolerance) in
  let er := dpow (dlit 10) (of_int log10rtolerance) in
  let eps_m := fun xm : D => if er * xm <? ea then ea else er in
  let order_at := fun sk : state =>
    to_int (dceil (- dlit (1 # 2) * dlog (eps_m (xm_at sk)) + of_int 1)) in
  (forall sk stepk,
     (pass sk stepk = IterThrow OrderExceeded <-> (order_at sk > max_order)%Z) /\
     ((order_at sk <= max_order)%Z ->
      pass sk stepk =
      match
        propagate_taylor_J2_step sk stepk (order_at sk) u mu veff J2RG2
          (xm_at sk) ea er
          (repeat dumb (Z.to_nat (order_at sk + 1)))
          (repeat dumb2 (Z.to_nat (order_at sk)))
      with
      | None => IterUndefined
      | Some (h, s') =>
          if dabs stepk <=? dabs h then IterBreak s' h
          else IterNext s' (stepk - h) h
      end)) /\
  (forall s',
     call s t0 = Throws OrderExceeded s' <->
     exists k stepk,
       (Z.of_nat k < max_iter)%Z /\ before k s t0 = Some (s', stepk) /\
       (order_at s' > max_order)%Z).
Proof.
  intros max xm_at ea er eps_m order_at.
  assert (Horder : forall sk, order_at sk =
            select_order (select_eps_m log10tolerance log10rtolerance
                            (state_norm sk))) by reflexivity.
  split.
  - intros sk stepk. split.
    + rewrite pass_throws, Horder. tauto.
    + intros Hle. exact (@pass_runs sk stepk Hle).
  - intros s'. split.
    + intros Hcall.
      destruct (first_stop (Z.to_nat max_iter) s t0)
        as [(sk & stepk & H)|(k & sk & stepk & Hk & H & Hstop)].
      * destruct (@call_exhausted_or s _ t0 _ H) as [E|E];
          rewrite E in Hcall; discriminate.
      * pose proof (@call_stops k s sk t0 stepk Hk H) as Hend.
        destruct (pass sk stepk) as [e| |s'' h|s'' step' h] eqn:E.
        -- rewrite Hend in Hcall. injection Hcall as -> ->.
           exists k, stepk. split; [lia|]. split; [exact H|].
           rewrite Horder. now apply (pass_throws s' stepk OrderExceeded).
        -- rewrite Hend in Hcall. discriminate.
        -- destruct Hend as [Hend _]. rewrite Hend in Hcall. discriminate.
        -- now destruct (Hstop s'' step' h).
    + intros (k & stepk & Hk & H & Hgt).
      assert (Hk' : (k < Z.to_nat max_iter)%nat) by lia.
      pose proof (@call_stops k s _ t0 _ Hk' H) as Hend.
      assert (E : pass s' stepk = IterThrow OrderExceeded)
        by (apply pass_throws; split; [reflexivity | now rewrite <- Horder]).
      now rewrite E in Hend.
Qed.

(** *** The end of the loop *)


(** *** What the caller gets back *)

(** C9, as the code has it. A completed call of [propagate_taylor_J2]
    hands the state back and nothing else.  The length of the last step
    is the value [h] that [propagate_taylor_J2_step] returned in the pass
    that stopped the loop, where it satisfied [abs(h) >= abs(step)]; the
    call keeps it in a local of that pass. *)
Theorem C9_last_step_stays_inside (s s' : state) (t0 : D) :
  call s t0 = Returns s' ->
  exists k sk stepk h hs,
    (Z.of_nat k < max_iter)%Z /\
    before k s t0 = Some (sk, stepk) /\
    pass sk stepk = IterBreak s' h /\
    propagate_taylor_J2_step sk stepk
      (select_order (select_eps_m log10tolerance log10rtolerance (state_norm sk)))
      u mu veff J2RG2 (state_norm sk)
      (eps_a log10tolerance) (eps_r log10rtolerance)
      (repeat dumb (Z.to_nat
         (select_order (select_eps_m log10tolerance log10rtolerance
                          (state_norm sk)) + 1)))
      (repeat dumb2 (Z.to_nat
         (select_order (select_eps_m log10tolerance log10rtolerance
                          (state_norm sk)))))
      = Some (h, s') /\
    dgeb (dabs h) (dabs stepk) = true /\
    steps_taken u mu veff J2RG2 log10tolerance log10rtolerance
      max_iter max_order s t0 = h :: hs.
Proof.
  intros Hcall.
  destruct (first_stop (Z.to_nat max_iter) s t0)
    as [(sk & stepk & H)|(k & sk & stepk & Hk & H & Hstop)].
  - destruct (@call_exhausted_or s _ t0 _ H) as [E|E];
      rewrite E in Hcall; discriminate.
  - pose proof (@call_stops k s sk t0 stepk Hk H) as Hend.
    destruct (pass sk stepk) as [e| |s'' h|s'' step' h] eqn:E.
    + rewrite Hend in Hcall. discriminate.
    + rewrite Hend in Hcall. discriminate.
    + destruct Hend as [Hend [hs Hhs]]. rewrite Hend in Hcall.
      injection Hcall as ->.
      exists k, sk, stepk, h, hs.
      split; [lia|]. split; [exact H|]. split; [exact E|].
      assert (Hle : (select_order (select_eps_m log10tolerance log10rtolerance
                       (state_norm sk)) <= max_order)%Z).
      { destruct (Z.le_gt_cases
          (select_order (select_eps_m log10tolerance log10rtolerance
                           (state_norm sk))) max_order) as [Hle|Hgt];
          [exact Hle|].
        assert (E' : pass sk stepk = IterThrow OrderExceeded)
          by (apply pass_throws; split; [reflexivity|lia]).
        rewrite E in E'. discriminate. }
      rewrite (@pass_runs sk stepk Hle) in E.
      destruct (propagate_taylor_J2_step _ _ _ _ _ _ _ _ _ _ _ _)
        as [[h' s'']|]; [|discriminate].
      destruct (dgeb (dabs h') (dabs stepk)) eqn:Hcmp; [|discriminate].
      injection E as -> ->. repeat split; [|exact Hhs].
      exact Hcmp.
    + now destruct (Hstop s'' step' h).
Qed.

(** *** Errors before any step *)

(** C10. When [propagate_taylor_J2] raises an error before it has
    completed any step, the state is as the caller gave it.  With
    [max_iter <= 0], for an [int] [max_iter] above [INT_MIN] (where
    [max_iter - 1] does not overflow), the call always raises
    [IterationLimitExceeded] on the untouched state, whatever the
    duration, and with [max_iter >= 1] and an order above [max_order] in
    the first pass it raises [OrderExceeded] on the untouched state. *)
Theorem C10_errors_before_any_step (s : state) (t0 : D) :
  ((INT_MIN < max_iter <= 0)%Z ->
   call s t0 = Throws IterationLimitExceeded s) /\
  ((1 <= max_iter)%Z ->
   (select_order (select_eps_m log10tolerance log10rtolerance (state_norm s))
    > max_order)%Z ->
   call s t0 = Throws OrderExceeded s) /\
  (forall e s',
     call s t0 = Throws e s' ->
     steps_taken u mu veff J2RG2 log10tolerance log10rtolerance
       max_iter max_order s t0 = [] ->
     s' = s).
Proof.
  split; [|split].
  - intros [Hint Hle]. apply (@call_exhausted s s t0 t0 Hint).
    replace (Z.to_nat max_iter) with 0%nat by lia. reflexivity.
  - intros Hge Hgt. now apply call_order_exceeded_first.
  - intros e s' Hcall Hsteps.
    unfold call, propagate_taylor_J2 in Hcall. unfold steps_taken in Hsteps.
    pose proof (loop_steps (Z.to_nat max_iter) 0 s t0 []) as Hl.
    unfold loop in Hl. unfold run in Hcall, Hsteps.
    destruct (for_loop _ _ _ _ _ _ _ _ _ _ _ _) as [j s'' hs|e' s'' hs|];
      [| |discriminate].
    + destruct (max_iter - 1 <? INT_MIN)%Z; [discriminate|].
      destruct (j >? max_iter - 1)%Z; [|discriminate].
      injection Hcall as _ <-. subst hs. now apply Hl.
    + injection Hcall as _ <-. subst hs. now apply Hl.
Qed.

End LoopFacts.

(** ** The step, unfolded *)

Section StepFacts.

Context {DBL : Double}.
Local Open Scope dbl_scope.

Lemma step_unfold (s : state) (h : D) (order : Z) (thrust : vec3)
    (mu veff J2RG2 xm ea er : D) (x u : table) :
  (1 <= order)%Z ->
  propagate_taylor_J2_step s h order thrust mu veff J2RG2 xm ea er x u =
  Some
    (clamp_step h
       (candidate_step xm ea er
          (norm_row
             (fst (taylor_coefficients (c0 thrust) (c1 thrust) (c2 thrust)
                     mu veff J2RG2 (Z.to_nat order) (init_x s x, u)))
             (Z.to_nat order))
          (norm_row
             (fst (taylor_coefficients (c0 thrust) (c1 thrust) (c2 thrust)
                     mu veff J2RG2 (Z.to_nat order) (init_x s x, u)))
             (Z.to_nat order - 1))
          (Z.to_nat order)),
     advance s
       (fst (taylor_coefficients (c0 thrust) (c1 thrust) (c2 thrust)
               mu veff J2RG2 (Z.to_nat order) (init_x s x, u)))
       (Z.to_nat order)
       (clamp_step h
          (candidate_step xm ea er
             (norm_row
                (fst (taylor_coefficients (c0 thrust) (c1 thrust) (c2 thrust)
                        mu veff J2RG2 (Z.to_nat order) (init_x s x, u)))
                (Z.to_nat order))
             (norm_row
                (fst (taylor_coefficients (c0 thrust) (c1 thrust) (c2 thrust)
                        mu veff J2RG2 (Z.to_nat order) (init_x s x, u)))
                (Z.to_nat order - 1))
             (Z.to_nat order)))).
Proof.
  intros Hord. unfold propagate_taylor_J2_step.
  destruct (Z.ltb_spec order 1); [lia|]. cbv zeta.
  destruct (taylor_coefficients _ _ _ _ _ _ _ _) as [X U]. reflexivity.
Qed.

Lemma init_x_row_length (s : state) (x : table) (i : nat) :
  length (nth i (init_x s x) []) = length (nth i x []).
Proof. unfold init_x. cbv zeta. now rewrite !row_length_set. Qed.

(** The mass after a step, on a table [x] whose row 1 has seven entries. *)
Lemma advance_mass (s : state) (x : table) (n : nat) (step : D) :
  m0 (advance s x n step) = m0 s + get x 1 6 * step.
Proof.
  unfold advance.
  destruct (for_range 1 n (horner_step x step) (r0 s, v0 s, step))
    as [[r v] sp].
  reflexivity.
Qed.

End StepFacts.

(** ** Exact arithmetic *)

(** The operations of [RDouble], written as the operations of [R]. *)
Ltac exact_arith :=
  cbv [dadd dsub dmul ddiv dneg dsqrt dabs dlog dceil dpow dltb dleb dlit
       of_int to_int M_E D RDouble dmax dmin dgtb dgeb of_nat] in *.

Section Exact.

Local Open Scope R_scope.


Lemma Rleb_true (a b : R) : Rleb a b = true <-> a <= b.
Proof. unfold Rleb. destruct (Rle_dec a b); split; intros; try discriminate; tauto. Qed.

Lemma dmax_Rmax (a b : R) : dmax (DBL := RDouble) a b = Rmax a b.
Proof.
  exact_arith. unfold Rltb, Rmax.
  destruct (Rlt_dec a b), (Rle_dec a b); try reflexivity; lra.
Qed.

Lemma dmin_Rmin (a b : R) : dmin (DBL := RDouble) a b = Rmin a b.
Proof.
  exact_arith. unfold Rltb, Rmin.
  destruct (Rlt_dec b a), (Rle_dec a b); try reflexivity; lra.
Qed.

Lemma Rpow_nonneg (x y : R) : 0 <= Rpow x y.
Proof.
  unfold Rpow. destruct (Req_dec_T x 0); [destruct (Req_dec_T y 0); lra|].
  unfold Rpower. left. apply exp_pos.
Qed.

Lemma exp1_sq_pos : 0 < exp 1 * exp 1.
Proof. pose proof (exp_pos 1). nra. Qed.

(** The clamp of lines 177-178 on a candidate that is not negative. *)
Lemma clamp_step_exact (h cand : R) :
  0 <= cand ->
  let taken := clamp_step (DBL := RDouble) h cand in
  Rabs taken <= Rabs h /\
  (h < 0 -> taken <= 0) /\ (0 < h -> 0 <= taken) /\
  (0 < cand -> h < 0 -> taken < 0) /\ (0 < cand -> 0 < h -> 0 < taken) /\
  (h = 0 -> taken = 0).
Proof.
  intros Hc. unfold clamp_step. exact_arith. unfold Rltb.
  destruct (Rlt_dec h 0) as [Hh|Hh].
  - destruct (Rlt_dec (Rabs h) (Rabs (- cand))) as [Ha|Ha].
    + repeat split; intros; lra.
    + rewrite Rabs_Ropp, (Rabs_pos_eq cand) in Ha by lra.
      rewrite (Rabs_left h) in Ha by lra.
      rewrite Rabs_Ropp, (Rabs_pos_eq cand), (Rabs_left h) by lra.
      repeat split; intros; lra.
  - destruct (Rlt_dec (Rabs h) (Rabs cand)) as [Ha|Ha].
    + repeat split; intros; lra.
    + rewrite (Rabs_pos_eq cand), (Rabs_pos_eq h) in Ha by lra.
      rewrite (Rabs_pos_eq cand), (Rabs_pos_eq h) by lra.
      repeat split; intros; lra.
Qed.

Lemma Q2R_one : Q2R 1 = 1.
Proof. unfold Q2R. simpl. lra. Qed.

(** The infinity norm of the seven entries of the row [k] of a table. *)
Definition Rnorm7 (X : table (DBL := RDouble)) (k : nat) : R :=
  Rmax (Rmax (Rmax (Rmax (Rmax (Rmax
    (Rabs (get X k 0)) (Rabs (get X k 1))) (Rabs (get X k 2)))
    (Rabs (get X k 3))) (Rabs (get X k 4))) (Rabs (get X k 5)))
    (Rabs (get X k 6)).

Lemma norm_row_Rnorm7 (X : table (DBL := RDouble)) (k : nat) :
  norm_row X k = Rnorm7 X k.
Proof.
  unfold norm_row, Rnorm7. cbv zeta. rewrite !dmax_Rmax. reflexivity.
Qed.

(** The candidate step of lines 170-175 as [RDouble] computes it.  It is
    the value the source computes in exact arithmetic where no division
    by zero occurs: for [n >= 2] and norms that are not zero.  At [n = 1]
    the source's exponent [1. / (n - 1)] is an infinity, which the reals
    do not have, and the source's candidate is then not this one. *)
Definition Rcandidate (xm ea er xm_n xm_n1 : R) (n : nat) : R :=
  (if Rlt_dec (er * xm) ea
   then Rmin (Rpow (1 / xm_n) (1 / IZR (Z.of_nat n)))
             (Rpow (1 / xm_n1) (1 / IZR (Z.of_nat n - 1)))
   else Rmin (Rpow (xm / xm_n) (1 / IZR (Z.of_nat n)))
             (Rpow (xm / xm_n1) (1 / IZR (Z.of_nat n - 1))))
  / (exp 1 * exp 1).

Lemma candidate_step_exact (xm ea er xm_n xm_n1 : R) (n : nat) :
  candidate_step (DBL := RDouble) xm ea er xm_n xm_n1 n =
  Rcandidate xm ea er xm_n xm_n1 n.
Proof.
  unfold candidate_step, rho_m, Rcandidate.
  change (@dltb RDouble) with Rltb. unfold Rltb.
  change (@dmul RDouble) with Rmult.
  destruct (Rlt_dec (er * xm) ea); rewrite dmin_Rmin; exact_arith;
    rewrite Q2R_one; reflexivity.
Qed.

Lemma Rcandidate_nonneg (xm ea er xm_n xm_n1 : R) (n : nat) :
  0 <= Rcandidate xm ea er xm_n xm_n1 n.
Proof.
  unfold Rcandidate. apply Rmult_le_pos.
  - destruct (Rlt_dec (er * xm) ea); apply Rmin_glb; apply Rpow_nonneg.
  - left. apply Rinv_0_lt_compat, exp1_sq_pos.
Qed.





End Exact.

(** ** The mass *)

Section MassFacts.

Context {DBL : Double}.
Local Open Scope dbl_scope.

(** A step moves the mass by the coefficient [x[1][6]] times the step. *)
Lemma step_mass (s s' : state) (h taken : D) (order : Z) (thrust : vec3)
    (mu veff J2RG2 xm ea er : D) (x u : table) :
  length (nth 1 x []) = 7%nat ->
  propagate_taylor_J2_step s h order thrust mu veff J2RG2 xm ea er x u
    = Some (taken, s') ->
  m0 s' = m0 s + - sqrtT (c0 thrust) (c1 thrust) (c2 thrust) / veff * taken.
Proof.
  intros Hw Hstep.
  assert (Hord : (1 <= order)%Z).
  { unfold propagate_taylor_J2_step in Hstep.
    destruct (Z.ltb_spec order 1); [discriminate|lia]. }
  rewrite (@step_unfold DBL s h order thrust mu veff J2RG2 xm ea er x u Hord)
    in Hstep.
  injection Hstep as Ht Hs. rewrite <- Hs, advance_mass, Ht.
  rewrite (coeffs_mass (c0 thrust) (c1 thrust) (c2 thrust) mu veff J2RG2
             (N := Z.to_nat order) (k := 1)).
  - reflexivity.
  - lia.
  - change (fst (init_x s x, u)) with (init_x s x).
    rewrite init_x_row_length, Hw. lia.
Qed.

Variable u : vec3.
Variables mu veff J2RG2 : D.
Variables log10tolerance log10rtolerance : Z.
Variables max_iter max_order : Z.

(** The same in a pass of the controller, on the tables it allocates. *)
Lemma pass_mass (s : state) (step : D) :
  match
    iteration u mu veff J2RG2 log10tolerance log10rtolerance max_order s step
  with
  | IterBreak s' h | IterNext s' _ h =>
      m0 s' = m0 s + - sqrtT (c0 u) (c1 u) (c2 u) / veff * h
  | _ => True
  end.
Proof.
  unfold iteration. cbv zeta.
  destruct (_ >? max_order)%Z; [exact I|].
  destruct (propagate_taylor_J2_step _ _ _ _ _ _ _ _ _ _ _ _)
    as [[h s']|] eqn:E; [|exact I].
  assert (Hm : m0 s' = m0 s + - sqrtT (c0 u) (c1 u) (c2 u) / veff * h).
  { eapply step_mass; [|exact E].
    assert (Hord : (1 <= select_order
              (select_eps_m log10tolerance log10rtolerance (state_norm s)))%Z).
    { unfold propagate_taylor_J2_step in E.
      destruct (Z.ltb_spec (select_order
        (select_eps_m log10tolerance log10rtolerance (state_norm s))) 1);
        [discriminate|lia]. }
    destruct (Z.to_nat (select_order
      (select_eps_m log10tolerance log10rtolerance (state_norm s)) + 1))
      as [|[|m]] eqn:En; try lia.
    reflexivity. }
  destruct (dgeb _ _); exact Hm.
Qed.

End MassFacts.

(** ** The mass and the zero duration in exact arithmetic *)

Section ExactCalls.

Local Open Scope R_scope.

(** The sum of the steps taken. *)
Definition Rsum (hs : list R) : R := fold_right Rplus 0 hs.

(** [|thrust| / veff], the rate at which the mass flows. *)
Definition mass_rate (thrust : @vec3 RDouble) (veff : R) : R :=
  sqrt (c0 thrust * c0 thrust + c1 thrust * c1 thrust + c2 thrust * c2 thrust)
  / veff.

Lemma mass_rate_exact (thrust : @vec3 RDouble) (veff h m : R) :
  @dadd RDouble m
    (@dmul RDouble
       (@ddiv RDouble
          (@dneg RDouble
             (sqrtT (DBL := RDouble) (c0 thrust) (c1 thrust) (c2 thrust)))
          veff) h)
  = m - mass_rate thrust veff * h.
Proof. unfold sqrtT, mass_rate. exact_arith. unfold Rdiv. ring. Qed.


Section Call.

Variable u : @vec3 RDouble.
Variables mu veff J2RG2 : R.
Variables log10tolerance log10rtolerance : Z.
Variables max_iter max_order : Z.

Lemma loop_mass (fuel : nat) (j : Z) (s : @state RDouble) (step : R)
    (hs : list R) :
  match
    for_loop u mu veff J2RG2 log10tolerance log10rtolerance max_order
      fuel j s step hs
  with
  | LoopExit _ s' hs' | LoopThrow _ s' hs' =>
      m0 s' + mass_rate u veff * Rsum hs' = m0 s + mass_rate u veff * Rsum hs
  | LoopUndefined => True
  end.
Proof.
  revert j s step hs. induction fuel as [|fuel IH]; intros j s step hs.
  - reflexivity.
  - simpl for_loop.
    pose proof (pass_mass u mu veff J2RG2 log10tolerance log10rtolerance
                  max_order s step) as Hm.
    destruct (iteration u mu veff J2RG2 log10tolerance log10rtolerance
                max_order s step) as [e| |s' h|s' step' h]; trivial.
    + rewrite mass_rate_exact in Hm. simpl. lra.
    + rewrite mass_rate_exact in Hm.
      specialize (IH (j + 1)%Z s' step' (h :: hs)).
      destruct (for_loop _ _ _ _ _ _ _ _ _ _ _ _); trivial; simpl in IH; lra.
Qed.

End Call.


(** *** A call of duration zero *)

Lemma advance_zero (s : @state RDouble) (X : table (DBL := RDouble))
    (n : nat) :
  advance s X n 0 = s.
Proof.
  unfold advance.
  match goal with
  | |- context [for_range 1 n ?f ?a] => assert (H : for_range 1 n f a = a)
  end.
  { apply (for_range_ind (fun acc => acc = (r0 s, v0 s, 0))); [reflexivity|].
    intros j acc _ ->. unfold horner_step.
    destruct (r0 s) as [a b c], (v0 s) as [d e f]. cbn [c0 c1 c2].
    exact_arith. repeat f_equal; ring. }
  rewrite H. destruct s as [r v m]. cbn [r0 v0 m0]. exact_arith.
  f_equal. ring.
Qed.

Lemma clamp_step_zero (cand : R) :
  0 <= cand -> clamp_step (DBL := RDouble) 0 cand = 0.
Proof. intros Hc. now apply (clamp_step_exact 0 Hc). Qed.

Lemma step_zero (s : @state RDouble) (order : Z) (thrust : @vec3 RDouble)
    (mu veff J2RG2 xm ea er : R) (x u : table (DBL := RDouble)) :
  (1 <= order)%Z ->
  propagate_taylor_J2_step s 0 order thrust mu veff J2RG2 xm ea er x u
    = Some (0, s).
Proof.
  intros Hord.
  rewrite (@step_unfold RDouble s 0 order thrust mu veff J2RG2 xm ea er x u Hord).
  rewrite candidate_step_exact, clamp_step_zero by apply Rcandidate_nonneg.
  now rewrite advance_zero.
Qed.

Lemma pass_zero (u : @vec3 RDouble) (mu veff J2RG2 : R)
    (log10tolerance log10rtolerance max_order : Z) (s : @state RDouble) :
  (1 <= select_order (select_eps_m log10tolerance log10rtolerance (state_norm s))
     <= max_order)%Z ->
  iteration u mu veff J2RG2 log10tolerance log10rtolerance max_order s 0
    = IterBreak s 0.
Proof.
  intros [H1 Hmax].
  rewrite (@pass_runs RDouble u mu veff J2RG2 log10tolerance log10rtolerance
             max_order s 0 Hmax).
  rewrite step_zero by exact H1.
  unfold dgeb. change (@dleb RDouble) with Rleb.
  assert (E : Rleb (@dabs RDouble 0) (@dabs RDouble 0) = true)
    by (apply Rleb_true; lra).
  now rewrite E.
Qed.

(** C6, as the code has it. In exact arithmetic a call of
    [propagate_taylor_J2] with the duration 0, with [max_iter >= 1] and
    with the order selected for the state between 1 and [max_order],
    returns without error after one pass, whose step is 0, and leaves the
    position, the velocity and the mass as they were. *)
Theorem C6_zero_duration (u : @vec3 RDouble) (mu veff J2RG2 : R)
    (log10tolerance log10rtolerance max_iter max_order : Z)
    (s : @state RDouble) :
  (1 <= max_iter)%Z ->
  (1 <= select_order (select_eps_m log10tolerance log10rtolerance (state_norm s))
     <= max_order)%Z ->
  propagate_taylor_J2 u mu veff J2RG2 log10tolerance log10rtolerance
    max_iter max_order s 0 = Returns s /\
  steps_taken u mu veff J2RG2 log10tolerance log10rtolerance
    max_iter max_order s 0 = [0].
Proof.
  intros Hiter Hord.
  unfold propagate_taylor_J2, steps_taken, run.
  destruct (Z.to_nat max_iter) as [|f] eqn:Ef; [lia|].
  simpl for_loop. rewrite pass_zero by exact Hord.
  destruct (Z.ltb_spec (max_iter - 1) INT_MIN); [unfold INT_MIN in *; lia|].
  destruct (Z.gtb_spec 0 (max_iter - 1)); [lia|]. split; reflexivity.
Qed.

(** *** The order selected, on the reals *)

Lemma Rtrunc_IZR (z : Z) : Rtrunc (IZR z) = z.
Proof.
  unfold Rtrunc. destruct (Rle_dec 0 (IZR z)).
  - apply ZfloorZ.
  - apply Zceil_eq. lra.
Qed.

Lemma Q2R_ten : Q2R 10 = 10.
Proof. unfold Q2R. simpl. lra. Qed.

Lemma Q2R_half : Q2R (1 # 2) = / 2.
Proof. unfold Q2R. simpl. lra. Qed.

Lemma select_order_exact (eps : R) :
  select_order (DBL := RDouble) eps = Zceil (- / 2 * ln eps + 1).
Proof.
  unfold select_order. exact_arith. now rewrite Rtrunc_IZR, Q2R_half.
Qed.

Lemma eps_exact (k : Z) : eps_a (DBL := RDouble) k = Rpower 10 (IZR k).
Proof.
  unfold eps_a. exact_arith. rewrite Q2R_ten. unfold Rpow.
  destruct (Req_dec_T 10 0); [lra|reflexivity].
Qed.

Lemma eps_r_exact (k : Z) : eps_r (DBL := RDouble) k = Rpower 10 (IZR k).
Proof. apply eps_exact. Qed.

Lemma ln_Rpower (x y : R) : ln (Rpower x y) = y * ln x.
Proof. unfold Rpower. apply ln_exp. Qed.

Lemma ln_10_gt_1 : 1 < ln 10.
Proof.
  rewrite <- (ln_exp 1) at 1. apply ln_increasing; [apply exp_pos|].
  pose proof exp_le_3. lra.
Qed.

(** The order at the tolerance [10^k]. *)
Lemma order_at_exponent (k : Z) :
  select_order (DBL := RDouble) (Rpower 10 (IZR k))
  = Zceil (- / 2 * (IZR k * ln 10) + 1).
Proof. now rewrite select_order_exact, ln_Rpower. Qed.

Lemma select_eps_m_cases (a r : Z) (xm : R) :
  (Rpower 10 (IZR r) * xm < Rpower 10 (IZR a) /\
   select_eps_m (DBL := RDouble) a r xm = Rpower 10 (IZR a)) \/
  (Rpower 10 (IZR a) <= Rpower 10 (IZR r) * xm /\
   select_eps_m (DBL := RDouble) a r xm = Rpower 10 (IZR r)).
Proof.
  unfold select_eps_m. rewrite eps_exact, eps_r_exact.
  change (@dltb RDouble) with Rltb. change (@dmul RDouble) with Rmult.
  unfold Rltb.
  destruct (Rlt_dec (Rpower 10 (IZR r) * xm) (Rpower 10 (IZR a)));
    [left|right]; split; auto; lra.
Qed.

End ExactCalls.

(** ** The order and the tolerances *)

Section OrderMonotone.

Local Open Scope R_scope.



Lemma Zceil_gt (x : R) (z : Z) : IZR z < x -> (z < Zceil x)%Z.
Proof.
  intros H. apply lt_IZR. pose proof (Zceil_bound x). lra.
Qed.



End OrderMonotone.

(** ** Concrete calls *)

Section ConcreteCalls.

Local Open Scope R_scope.

(** With both tolerance exponents 0 the order selected is 1. *)
Lemma order_zero_exponents (xm : R) :
  select_order (select_eps_m (DBL := RDouble) 0 0 xm) = 1%Z.
Proof.
  destruct (select_eps_m_cases 0 0 xm) as [[_ ->]|[_ ->]];
    rewrite order_at_exponent; apply Zceil_eq; lra.
Qed.

(** A state on the x axis, moving along it. *)
Definition sB : @state RDouble := State (Vec3 2 0 0) (Vec3 1 0 0) 1.

(** The state a sixteenth of a time unit later, by the series of order 1. *)
Definition sOut : @state RDouble :=
  State (Vec3 (2 + / 16) 0 0) (Vec3 (1 - / 64) 0 0) 1.

Ltac eval_tables :=
  cbv [taylor_coefficients gen_body gen_u gen_x then_ assign set get update nth
       conv conv_step pow_rec pow_step for_range fold_left seq Nat.eqb Nat.add
       Nat.sub repeat dumb dumb2 init_x fst snd r0 v0 m0 c0 c1 c2 sB
       alpha beta sqrtT of_nat Z.of_nat Pos.of_succ_nat Q2R Qnum Qden
       dadd dsub dmul ddiv dneg dsqrt dabs dlog dceil dpow dltb dleb dlit
       of_int to_int M_E D RDouble].

Ltac eval_sqrt :=
  repeat match goal with
  | |- context [sqrt ?a] =>
      first
        [ replace a with 0 by lra; rewrite sqrt_0
        | replace a with (/ 8 * / 8) by (field_simplify; lra);
          rewrite (sqrt_square (/ 8)) by lra ]
  end.

Lemma runB_coeffs :
  fst (taylor_coefficients (DBL := RDouble) 0 0 0 1 1 0 1
         (init_x sB (repeat dumb 2), repeat dumb2 1))
  = [[2; 0; 0; 1; 0; 0; 1]; [1; 0; 0; - / 4; 0; 0; 0]].
Proof.
  eval_tables. eval_sqrt. repeat f_equal; lra.
Qed.

Ltac eval_abs :=
  repeat match goal with
  | |- context [Rabs ?a] =>
      first [ rewrite (Rabs_pos_eq a) by lra | rewrite (Rabs_left a) by lra ]
  end.

Ltac eval_max :=
  repeat match goal with
  | |- context [Rmax ?a ?b] =>
      first [ rewrite (Rmax_left a b) by lra | rewrite (Rmax_right a b) by lra ]
  end.

Lemma runB_norm : state_norm sB = 2.
Proof.
  unfold state_norm. cbv zeta. rewrite !dmax_Rmax.
  cbv [sB r0 v0 m0 c0 c1 c2 dabs RDouble]. eval_abs. eval_max. reflexivity.
Qed.

Lemma Rpow_one_l (y : R) : Rpow 1 y = 1.
Proof.
  unfold Rpow. destruct (Req_dec_T 1 0); [lra|].
  unfold Rpower. now rewrite ln_1, Rmult_0_r, exp_0.
Qed.

Lemma Rpow_one_r (x : R) : 0 < x -> Rpow x 1 = x.
Proof.
  intros Hx. unfold Rpow. destruct (Req_dec_T x 0); [lra|].
  now apply Rpower_1.
Qed.

Lemma exp1_sq_le_9 : exp 1 * exp 1 <= 9.
Proof. pose proof exp_le_3. pose proof (exp_pos 1). nra. Qed.

(** The candidate of the first step from [sB]: [min(2, 1) / e^2]. *)
Lemma runB_candidate :
  Rcandidate 2 (eps_a (DBL := RDouble) 0) (eps_r (DBL := RDouble) 0) 1 2 1
  = / (exp 1 * exp 1).
Proof.
  unfold Rcandidate. rewrite eps_exact, eps_r_exact.
  rewrite (Rpower_O 10) by lra.
  destruct (Rlt_dec (1 * 2) 1); [lra|]. simpl Z.of_nat. simpl Z.sub.
  replace (2 / 1) with 2 by lra. replace (1 / 1) with 1 by lra.
  replace (2 / 2) with 1 by lra.
  rewrite Rpow_one_l, Rpow_one_r by lra.
  rewrite Rmin_right by lra. lra.
Qed.

Lemma runB_clamp : clamp_step (DBL := RDouble) (/ 16) (/ (exp 1 * exp 1)) = / 16.
Proof.
  pose proof exp1_sq_le_9 as H9. pose proof exp1_sq_pos as Hp.
  assert (Hc : / 9 <= / (exp 1 * exp 1))
    by (apply Rinv_le_contravar; lra).
  unfold clamp_step. exact_arith. unfold Rltb.
  destruct (Rlt_dec (/ 16) 0); [lra|].
  rewrite (Rabs_pos_eq (/ 16)), (Rabs_pos_eq (/ (exp 1 * exp 1))) by lra.
  destruct (Rlt_dec (/ 16) (/ (exp 1 * exp 1))); [reflexivity|lra].
Qed.

Lemma runB_step :
  propagate_taylor_J2_step sB (/ 16) 1 (Vec3 0 0 0) 1 1 0 2
    (eps_a (DBL := RDouble) 0) (eps_r (DBL := RDouble) 0)
    (repeat dumb 2) (repeat dumb2 1)
  = Some (/ 16, sOut).
Proof.
  rewrite (@step_unfold RDouble) by lia.
  cbn [c0 c1 c2]. change (Z.to_nat 1) with 1%nat. cbn [Nat.sub].
  match goal with
  | |- context [fst ?t] =>
      let H := fresh in
      assert (H : fst t = [[2; 0; 0; 1; 0; 0; 1]; [1; 0; 0; - / 4; 0; 0; 0]])
        by exact runB_coeffs;
      rewrite H; clear H
  end.
  rewrite candidate_step_exact, !norm_row_Rnorm7.
  assert (N1 : Rnorm7 [[2; 0; 0; 1; 0; 0; 1]; [1; 0; 0; - / 4; 0; 0; 0]] 1 = 1).
  { unfold Rnorm7. cbv [get nth]. eval_abs. eval_max. reflexivity. }
  assert (N0 : Rnorm7 [[2; 0; 0; 1; 0; 0; 1]; [1; 0; 0; - / 4; 0; 0; 0]] 0 = 2).
  { unfold Rnorm7. cbv [get nth]. eval_abs. eval_max. reflexivity. }
  rewrite N1, N0, runB_candidate, runB_clamp.
  f_equal. f_equal.
  cbv [advance for_range fold_left seq horner_step get nth sB sOut
       r0 v0 m0 c0 c1 c2 dadd dmul RDouble D].
  f_equal; [f_equal|f_equal|]; lra.
Qed.

Lemma runB_pass (max_order : Z) :
  (1 <= max_order)%Z ->
  iteration (Vec3 0 0 0) 1 1 0 0 0 max_order sB (/ 16) = IterBreak sOut (/ 16).
Proof.
  intros Hmax.
  rewrite (@pass_runs RDouble)
    by (cbv zeta; rewrite order_zero_exponents; exact Hmax).
  rewrite !order_zero_exponents, runB_norm.
  change (Z.to_nat (1 + 1)) with 2%nat. change (Z.to_nat 1) with 1%nat.
  rewrite runB_step.
  unfold dgeb. change (@dleb RDouble) with Rleb.
  assert (E : Rleb (@dabs RDouble (/ 16)) (@dabs RDouble (/ 16)) = true)
    by (apply Rleb_true; lra).
  now rewrite E.
Qed.

(** The call from [sB] for a duration of 1/16: one step, of 1/16. *)
Lemma runB_call (max_iter max_order : Z) :
  (1 <= max_iter)%Z -> (1 <= max_order)%Z ->
  propagate_taylor_J2 (Vec3 0 0 0) 1 1 0 0 0 max_iter max_order sB (/ 16)
    = Returns sOut /\
  steps_taken (Vec3 0 0 0) 1 1 0 0 0 max_iter max_order sB (/ 16) = [/ 16].
Proof.
  intros Hiter Hmax.
  unfold propagate_taylor_J2, steps_taken, run.
  destruct (Z.to_nat max_iter) as [|f] eqn:Ef; [lia|].
  simpl for_loop. rewrite runB_pass by exact Hmax.
  destruct (Z.ltb_spec (max_iter - 1) INT_MIN); [unfold INT_MIN in *; lia|].
  destruct (Z.gtb_spec 0 (max_iter - 1)); [lia|]. split; reflexivity.
Qed.

(** The call from [sOut] for a duration of 0: one step, of 0. *)
Lemma runA_call (max_iter max_order : Z) :
  (1 <= max_iter)%Z -> (1 <= max_order)%Z ->
  propagate_taylor_J2 (Vec3 0 0 0) 1 1 0 0 0 max_iter max_order sOut 0
    = Returns sOut /\
  steps_taken (Vec3 0 0 0) 1 1 0 0 0 max_iter max_order sOut 0 = [0].
Proof.
  intros Hiter Hmax.
  assert (Hord : (1 <= select_order (select_eps_m (DBL := RDouble) 0 0
                                       (state_norm sOut)) <= max_order)%Z)
    by (rewrite order_zero_exponents; lia).
  unfold propagate_taylor_J2, steps_taken, run.
  destruct (Z.to_nat max_iter) as [|f] eqn:Ef; [lia|].
  simpl for_loop. rewrite pass_zero by exact Hord.
  destruct (Z.ltb_spec (max_iter - 1) INT_MIN); [unfold INT_MIN in *; lia|].
  destruct (Z.gtb_spec 0 (max_iter - 1)); [lia|]. split; reflexivity.
Qed.

(** *** The last step and the caller *)

(** The last step of a completed call would be exposed to the caller if
    it could be read off what the call hands back, the state. *)
Definition exposes_last_step : Prop :=
  exists f : @state RDouble -> R,
  forall (u : @vec3 RDouble) (mu veff J2RG2 : R)
         (log10tolerance log10rtolerance max_iter max_order : Z)
         (s s' : @state RDouble) (t0 h : R) (hs : list R),
    propagate_taylor_J2 u mu veff J2RG2 log10tolerance log10rtolerance
      max_iter max_order s t0 = Returns s' ->
    steps_taken u mu veff J2RG2 log10tolerance log10rtolerance
      max_iter max_order s t0 = h :: hs ->
    f s' = h.

(** Two completed calls hand back the same state, one after a last step
    of 1/16 and one after a last step of 0. *)
Lemma C9_counterexample :
  (propagate_taylor_J2 (Vec3 0 0 0) 1 1 0 0 0 100000 3000 sB (/ 16)
     = Returns sOut /\
   steps_taken (Vec3 0 0 0) 1 1 0 0 0 100000 3000 sB (/ 16) = [/ 16]) /\
  (propagate_taylor_J2 (Vec3 0 0 0) 1 1 0 0 0 100000 3000 sOut 0
     = Returns sOut /\
   steps_taken (Vec3 0 0 0) 1 1 0 0 0 100000 3000 sOut 0 = [0]) /\
  ~ exposes_last_step.
Proof.
  assert (HB := @runB_call 100000 3000 ltac:(lia) ltac:(lia)).
  assert (HA := @runA_call 100000 3000 ltac:(lia) ltac:(lia)).
  split; [exact HB|]. split; [exact HA|].
  intros [f Hf].
  pose proof (Hf _ _ _ _ _ _ _ _ _ _ _ _ _ (proj1 HB) (proj2 HB)) as H1.
  pose proof (Hf _ _ _ _ _ _ _ _ _ _ _ _ _ (proj1 HA) (proj2 HA)) as H2.
  lra.
Qed.

Lemma C9_last_step_stays_inside_witness :
  exists h hs,
    steps_taken (Vec3 0 0 0) 1 1 0 0 0 100000 3000 sB (/ 16) = h :: hs.
Proof.
  destruct (@C9_last_step_stays_inside RDouble (@Vec3 RDouble 0 0 0) 1 1 0 0%Z 0%Z
              100000 3000 sB sOut (/ 16)
              (proj1 (@runB_call 100000 3000 ltac:(lia) ltac:(lia))))
    as (k & sk & stepk & h & hs & _ & _ & _ & _ & _ & Hs).
  exists h, hs. exact Hs.
Defined.

(** *** The zero duration and the order cap *)

(** The circular orbit of unit radius, unit speed and unit mass. *)
Definition circular_orbit : @state RDouble :=
  State (Vec3 1 0 0) (Vec3 0 1 0) 1.

(** With the tolerance exponents -10 the order selected is above 6. *)
Lemma order_default_exponents (xm : R) :
  (6 < select_order (select_eps_m (DBL := RDouble) (-10) (-10) xm))%Z.
Proof.
  pose proof ln_10_gt_1 as L.
  destruct (select_eps_m_cases (-10) (-10) xm) as [[_ ->]|[_ ->]];
    rewrite order_at_exponent; apply Zceil_gt; lra.
Qed.

(** A call of duration 0 with the tolerances of the signature and
    [max_order = 3]: the mass is positive, the radius and [veff] are not
    zero, [max_iter >= 1], and the call throws [OrderExceeded]. *)
Lemma C6_counterexample :
  0 < m0 circular_orbit /\ c0 (r0 circular_orbit) <> 0 /\ (1 <> 0) /\
  (1 <= 100000)%Z /\
  propagate_taylor_J2 (Vec3 0 0 0) 1 1 0 (-10) (-10) 100000 3
    circular_orbit 0 = Throws OrderExceeded circular_orbit /\
  propagate_taylor_J2 (Vec3 0 0 0) 1 1 0 (-10) (-10) 100000 3
    circular_orbit 0 <> Returns circular_orbit.
Proof.
  assert (H : propagate_taylor_J2 (Vec3 0 0 0) 1 1 0 (-10) (-10) 100000 3
                circular_orbit 0 = Throws OrderExceeded circular_orbit).
  { apply (@call_order_exceeded_first RDouble); [lia|].
    pose proof (order_default_exponents (state_norm circular_orbit)). lia. }
  cbn [circular_orbit m0 r0 c0].
  repeat split; try lra; try lia; [exact H|]. rewrite H. discriminate.
Qed.

Lemma C6_zero_duration_witness :
  propagate_taylor_J2 (Vec3 0 0 0) 1 1 0 0 0 100000 3000 circular_orbit 0
    = Returns circular_orbit /\
  steps_taken (Vec3 0 0 0) 1 1 0 0 0 100000 3000 circular_orbit 0 = [0].
Proof.
  apply C6_zero_duration; [lia|].
  rewrite order_zero_exponents. lia.
Defined.

(** *** The order and the tolerances *)






(** *** A step *)



End ConcreteCalls.

(** * Further properties of the propagator *)

(** ** The budget of passes *)

Section Budget.

Context {DBL : Double}.
Local Open Scope dbl_scope.

Variable u : vec3.
Variables mu veff J2RG2 : D.
Variables log10tolerance log10rtolerance : Z.
Variables max_iter max_order : Z.

Lemma loop_budget (fuel : nat) (j : Z) (s : state) (step : D) (hs : list D) :
  match
    for_loop u mu veff J2RG2 log10tolerance log10rtolerance max_order
      fuel j s step hs
  with
  | LoopExit j' _ hs' =>
      (length hs' <= length hs + fuel)%nat /\
      (j' = j + Z.of_nat fuel \/
       (j' < j + Z.of_nat fuel /\ (length hs < length hs')%nat))%Z
  | LoopThrow _ _ hs' => (length hs' <= length hs + fuel)%nat
  | LoopUndefined => True
  end.
Proof.
  revert j s step hs. induction fuel as [|fuel IH]; intros j s step hs.
  - simpl. split; [lia|]. left. lia.
  - simpl for_loop.
    destruct (iteration u mu veff J2RG2 log10tolerance log10rtolerance
                max_order s step) as [e| |s' h|s' step' h]; trivial.
    + lia.
    + simpl. split; [lia|]. right. split; lia.
    + specialize (IH (j + 1)%Z s' step' (h :: hs)).
      destruct (for_loop _ _ _ _ _ _ _ _ _ _ _ _); trivial; simpl in IH.
      * destruct IH as [IH1 [IH2|[IH2 IH3]]].
        -- split; [lia|]. left. lia.
        -- split; [lia|]. right. split; lia.
      * lia.
Qed.

(** A call never takes more than [max_iter] steps, whatever its outcome,
    and a call that returns has taken at least one. *)
Theorem steps_within_budget (s : state) (t0 : D) :
  (Z.of_nat (length (steps_taken u mu veff J2RG2 log10tolerance
                       log10rtolerance max_iter max_order s t0))
   <= Z.max 0 max_iter)%Z /\
  (forall s',
     propagate_taylor_J2 u mu veff J2RG2 log10tolerance log10rtolerance
       max_iter max_order s t0 = Returns s' ->
     (1 <= length (steps_taken u mu veff J2RG2 log10tolerance
                     log10rtolerance max_iter max_order s t0))%nat).
Proof.
  pose proof (loop_budget (Z.to_nat max_iter) 0 s t0 []) as Hb.
  unfold propagate_taylor_J2, steps_taken, run.
  destruct (for_loop _ _ _ _ _ _ _ _ _ _ _ _) as [j s'' hs|e s'' hs|];
    simpl in Hb.
  - split; [lia|]. intros s' Hcall.
    destruct (max_iter - 1 <? INT_MIN)%Z; [discriminate|].
    destruct (Z.gtb_spec j (max_iter - 1)); [discriminate|]. lia.
  - split; [lia|]. discriminate.
  - split; [simpl; lia|]. discriminate.
Qed.

End Budget.

(** ** The duration a call covers, in exact arithmetic *)

Section ExactDuration.

Local Open Scope R_scope.

Variable u : @vec3 RDouble.
Variables mu veff J2RG2 : R.
Variables log10tolerance log10rtolerance : Z.
Variables max_iter max_order : Z.

(** The pass that stops the loop has taken all the duration left; a pass
    that goes on has taken a part of it, in its direction. *)
Lemma pass_step_exact (s : @state RDouble) (step : R) :
  match
    iteration u mu veff J2RG2 log10tolerance log10rtolerance max_order s step
  with
  | IterBreak _ h => h = step
  | IterNext _ step' h =>
      step' = step - h /\
      ((0 < step /\ 0 <= h < step) \/ (step < 0 /\ step < h <= 0))
  | _ => True
  end.
Proof.
  unfold iteration. cbv zeta.
  destruct (_ >? max_order)%Z; [exact I|].
  destruct (propagate_taylor_J2_step _ _ _ _ _ _ _ _ _ _ _ _)
    as [[h s']|] eqn:E; [|exact I].
  assert (Hord : (1 <= select_order
            (select_eps_m log10tolerance log10rtolerance (state_norm s)))%Z).
  { unfold propagate_taylor_J2_step in E.
    destruct (Z.ltb_spec (select_order
      (select_eps_m log10tolerance log10rtolerance (state_norm s))) 1);
      [discriminate|lia]. }
  rewrite (@step_unfold RDouble) in E by exact Hord.
  match type of E with
  | Some (?t, _) = _ => assert (Hh : t = h) by congruence
  end.
  clear E. rewrite candidate_step_exact in Hh.
  match type of Hh with
  | clamp_step _ ?c = _ =>
      assert (Hc : 0 <= c) by apply Rcandidate_nonneg;
      pose proof (clamp_step_exact step Hc) as F; cbv zeta in F;
      rewrite Hh in F
  end.
  destruct F as (Fabs & Fneg & Fpos & _ & _ & Fzero).
  unfold dgeb. change (@dleb RDouble) with Rleb.
  change (@dabs RDouble) with Rabs. change (@dsub RDouble) with Rminus.
  unfold Rleb. destruct (Rle_dec (Rabs step) (Rabs h)) as [Hge|Hlt].
  - destruct (Rtotal_order step 0) as [Hs|[Hs|Hs]].
    + specialize (Fneg Hs).
      rewrite (Rabs_left step), (Rabs_left1 h) in * by lra. lra.
    + rewrite Fzero by exact Hs. now rewrite Hs.
    + specialize (Fpos Hs).
      rewrite (Rabs_pos_eq step), (Rabs_pos_eq h) in * by lra. lra.
  - split; [reflexivity|].
    destruct (Rtotal_order step 0) as [Hs|[Hs|Hs]].
    + right. specialize (Fneg Hs).
      rewrite (Rabs_left step), (Rabs_left1 h) in * by lra. lra.
    + rewrite (Fzero Hs), Hs in Hlt. lra.
    + left. specialize (Fpos Hs).
      rewrite (Rabs_pos_eq step), (Rabs_pos_eq h) in * by lra. lra.
Qed.

(** Where the steps recorded can lie, from the duration [step] left. *)
Definition within (step : R) (hs hs' : list R) : Prop :=
  (0 <= step ->
   Rsum hs <= Rsum hs' <= Rsum hs + step /\
   (Forall (fun h => 0 <= h) hs -> Forall (fun h => 0 <= h) hs')) /\
  (step <= 0 ->
   Rsum hs + step <= Rsum hs' <= Rsum hs /\
   (Forall (fun h => h <= 0) hs -> Forall (fun h => h <= 0) hs')).

Lemma loop_duration (fuel : nat) (j : Z) (s : @state RDouble) (step : R)
    (hs : list R) :
  match
    for_loop u mu veff J2RG2 log10tolerance log10rtolerance max_order
      fuel j s step hs
  with
  | LoopExit j' _ hs' =>
      ((j' < j + Z.of_nat fuel)%Z -> Rsum hs' = Rsum hs + step) /\
      within step hs hs'
  | LoopThrow _ _ hs' => within step hs hs'
  | LoopUndefined => True
  end.
Proof.
  revert j s step hs. induction fuel as [|fuel IH]; intros j s step hs.
  - simpl. split; [lia|]. unfold within. split; intros; (split; [lra|auto]).
  - simpl for_loop. pose proof (pass_step_exact s step) as Hp.
    destruct (iteration u mu veff J2RG2 log10tolerance log10rtolerance
                max_order s step) as [e| |s' h|s' step' h]; trivial.
    + unfold within. split; intros; (split; [lra|auto]).
    + subst h. split; [intros _; simpl; lra|].
      unfold within. simpl.
      split; intros; (split; [lra|intros; constructor; auto]).
    + destruct Hp as [-> Hdir].
      specialize (IH (j + 1)%Z s' (step - h) (h :: hs)).
      destruct (for_loop _ _ _ _ _ _ _ _ _ _ _ _) as [j' s'' hs'|e s'' hs'|];
        trivial.
      * destruct IH as [IHsum IHw]. split.
        -- intros Hj. rewrite IHsum by lia. simpl. lra.
        -- unfold within in *. simpl in IHw. destruct IHw as [IHp IHn].
           split; intros Hs.
           ++ destruct IHp as [IH1 IH2]; [lra|].
              split; [lra|]. intros Hall. apply IH2. constructor; [lra|auto].
           ++ destruct IHn as [IH1 IH2]; [lra|].
              split; [lra|]. intros Hall. apply IH2. constructor; [lra|auto].
      * unfold within in *. simpl in IH. destruct IH as [IHp IHn].
        split; intros Hs.
        -- destruct IHp as [IH1 IH2]; [lra|].
           split; [lra|]. intros Hall. apply IH2. constructor; [lra|auto].
        -- destruct IHn as [IH1 IH2]; [lra|].
           split; [lra|]. intros Hall. apply IH2. constructor; [lra|auto].
Qed.

(** A call that returns has covered exactly the duration asked for: its
    steps sum to [t0], and the mass has changed by [-|thrust| / veff]
    times [t0]. *)
Theorem returned_call_covers_duration (s s' : @state RDouble) (t0 : R) :
  propagate_taylor_J2 u mu veff J2RG2 log10tolerance log10rtolerance
    max_iter max_order s t0 = Returns s' ->
  Rsum (steps_taken u mu veff J2RG2 log10tolerance log10rtolerance
          max_iter max_order s t0) = t0 /\
  m0 s' = m0 s - mass_rate u veff * t0.
Proof.
  intros Hcall.
  assert (Hiter : (1 <= max_iter)%Z).
  { destruct (Z.le_gt_cases 1 max_iter) as [H|H]; [exact H|].
    unfold propagate_taylor_J2, run in Hcall.
    replace (Z.to_nat max_iter) with 0%nat in Hcall by lia.
    simpl in Hcall.
    destruct (max_iter - 1 <? INT_MIN)%Z; [discriminate|].
    destruct (Z.gtb_spec 0 (max_iter - 1)); [discriminate|lia]. }
  pose proof (loop_duration (Z.to_nat max_iter) 0 s t0 []) as Hd.
  pose proof (loop_mass u mu veff J2RG2 log10tolerance log10rtolerance
                max_order (Z.to_nat max_iter) 0 s t0 []) as Hm.
  unfold propagate_taylor_J2, steps_taken, run in *.
  destruct (for_loop _ _ _ _ _ _ _ _ _ _ _ _) as [j s'' hs|e s'' hs|];
    [|discriminate|discriminate].
  destruct (max_iter - 1 <? INT_MIN)%Z; [discriminate|].
  destruct (Z.gtb_spec j (max_iter - 1)) as [|Hj]; [discriminate|].
  injection Hcall as ->.
  destruct Hd as [Hsum _]. specialize (Hsum ltac:(lia)).
  change (Rsum []) with 0 in *. rewrite Hsum in *. split; lra.
Qed.

(** Whatever its outcome, a call has moved in the direction of [t0] only
    and not beyond it: for [t0 >= 0] every step taken is at least 0 and
    their sum is at most [t0], and symmetrically for [t0 <= 0]. *)
Theorem call_never_overshoots (s : @state RDouble) (t0 : R) :
  (0 <= t0 ->
   Forall (fun h => 0 <= h)
     (steps_taken u mu veff J2RG2 log10tolerance log10rtolerance
        max_iter max_order s t0) /\
   0 <= Rsum (steps_taken u mu veff J2RG2 log10tolerance log10rtolerance
                max_iter max_order s t0) <= t0) /\
  (t0 <= 0 ->
   Forall (fun h => h <= 0)
     (steps_taken u mu veff J2RG2 log10tolerance log10rtolerance
        max_iter max_order s t0) /\
   t0 <= Rsum (steps_taken u mu veff J2RG2 log10tolerance log10rtolerance
                 max_iter max_order s t0) <= 0).
Proof.
  pose proof (loop_duration (Z.to_nat max_iter) 0 s t0 []) as Hd.
  unfold steps_taken, run.
  destruct (for_loop _ _ _ _ _ _ _ _ _ _ _ _) as [j s'' hs|e s'' hs|].
  - destruct Hd as [_ [Hp Hn]]. simpl in Hp, Hn.
    split; intros H0; [destruct (Hp H0) as [H1 H2]|destruct (Hn H0) as [H1 H2]];
      (split; [apply H2; constructor|lra]).
  - destruct Hd as [Hp Hn]. simpl in Hp, Hn.
    split; intros H0; [destruct (Hp H0) as [H1 H2]|destruct (Hn H0) as [H1 H2]];
      (split; [apply H2; constructor|lra]).
  - split; intros H0; (split; [constructor|simpl; lra]).
Qed.

End ExactDuration.

(** ** The tolerance exponents and the order, in exact arithmetic *)

Section OrderRange.

Local Open Scope R_scope.

Lemma ln_10_ge_2 : 2 <= ln 10.
Proof.
  rewrite <- (ln_exp 2). left. apply ln_increasing; [apply exp_pos|].
  replace 2 with (1 + 1) by lra. rewrite exp_plus.
  pose proof exp1_sq_le_9. lra.
Qed.

(** With tolerance exponents that are not positive the order is at
    least 1. *)
Lemma order_ge_1 (a r : Z) (xm : R) :
  (a <= 0)%Z -> (r <= 0)%Z ->
  (1 <= select_order (select_eps_m (DBL := RDouble) a r xm))%Z.
Proof.
  intros Ha Hr. pose proof ln_10_gt_1 as L.
  apply IZR_le in Ha. apply IZR_le in Hr.
  assert (H : forall k : Z, IZR k <= 0 ->
            (1 <= select_order (DBL := RDouble) (Rpower 10 (IZR k)))%Z).
  { intros k Hk. rewrite order_at_exponent.
    assert (0 < Zceil (- / 2 * (IZR k * ln 10) + 1))%Z; [|lia].
    apply Zceil_gt. nra. }
  destruct (select_eps_m_cases a r xm) as [[_ ->]|[_ ->]]; auto.
Qed.

(** With tolerance exponents that are positive the order is at most 0. *)
Lemma order_le_0 (a r : Z) (xm : R) :
  (1 <= a)%Z -> (1 <= r)%Z ->
  (select_order (select_eps_m (DBL := RDouble) a r xm) <= 0)%Z.
Proof.
  intros Ha Hr. pose proof ln_10_ge_2 as L.
  apply IZR_le in Ha. apply IZR_le in Hr.
  assert (H : forall k : Z, 1 <= IZR k ->
            (select_order (DBL := RDouble) (Rpower 10 (IZR k)) <= 0)%Z).
  { intros k Hk. rewrite order_at_exponent.
    assert (E : Zceil 0 = 0%Z) by (apply Zceil_eq; lra).
    rewrite <- E. apply Zceil_le. nra. }
  destruct (select_eps_m_cases a r xm) as [[_ ->]|[_ ->]]; auto.
Qed.

Lemma ln_10_le_3 : ln 10 <= 3.
Proof.
  rewrite <- (ln_exp 3). left. apply ln_increasing; [lra|].
  pose proof (exp_ineq1 (/ 2) ltac:(lra)) as Ha.
  assert (E1 : exp (3 / 2) = exp (/ 2) * exp (/ 2) * exp (/ 2))
    by (rewrite <- !exp_plus; f_equal; lra).
  assert (E3 : exp 3 = exp (3 / 2) * exp (3 / 2))
    by (rewrite <- exp_plus; f_equal; lra).
  assert (H2 : 9 / 4 < exp (/ 2) * exp (/ 2)) by nra.
  assert (H3 : 27 / 8 < exp (3 / 2)) by (rewrite E1; nra).
  rewrite E3. nra.
Qed.

(** With tolerance exponents from -323 on, where [pow(10., e)] is still a
    positive [double], the order is at most 486. *)
Lemma order_le_486 (a r : Z) (xm : R) :
  (-323 <= a)%Z -> (-323 <= r)%Z ->
  (select_order (select_eps_m (DBL := RDouble) a r xm) <= 486)%Z.
Proof.
  intros Ha Hr. pose proof ln_10_le_3 as L. pose proof ln_10_gt_1 as L1.
  apply IZR_le in Ha. apply IZR_le in Hr.
  assert (H : forall k : Z, -323 <= IZR k ->
            (select_order (DBL := RDouble) (Rpower 10 (IZR k)) <= 486)%Z).
  { intros k Hk. rewrite order_at_exponent.
    assert (E : Zceil 486 = 486%Z) by (apply Zceil_eq; lra).
    rewrite <- E. apply Zceil_le.
    destruct (Rle_dec 0 (IZR k)); nra. }
  destruct (select_eps_m_cases a r xm) as [[_ ->]|[_ ->]]; auto.
Qed.

End OrderRange.

(** A pass leaves the tables exactly when the order it selects passes the
    check against [max_order] and is below 1. *)
Lemma pass_undefined {DBL : Double} (u : vec3) (mu veff J2RG2 : D)
    (log10tolerance log10rtolerance max_order : Z) (s : state) (step : D) :
  iteration u mu veff J2RG2 log10tolerance log10rtolerance max_order s step
    = IterUndefined <->
  (select_order (select_eps_m log10tolerance log10rtolerance (state_norm s))
   <= max_order)%Z /\
  (select_order (select_eps_m log10tolerance log10rtolerance (state_norm s))
   < 1)%Z.
Proof.
  unfold iteration. cbv zeta.
  destruct (Z.gtb_spec
    (select_order (select_eps_m log10tolerance log10rtolerance (state_norm s)))
    max_order) as [Hgt|Hle].
  - split; [discriminate|lia].
  - unfold propagate_taylor_J2_step.
    destruct (Z.ltb_spec
      (select_order (select_eps_m log10tolerance log10rtolerance (state_norm s)))
      1) as [Hlt|Hge].
    + split; [intros _; split; assumption|reflexivity].
    + cbv zeta. destruct (taylor_coefficients _ _ _ _ _ _ _ _) as [X U].
      split; [|lia].
      destruct (dgeb _ _); discriminate.
Qed.

Section OrderRangeOfCalls.

Local Open Scope R_scope.

Variable u : @vec3 RDouble.
Variables mu veff J2RG2 : R.
Variables log10tolerance log10rtolerance : Z.
Variables max_iter max_order : Z.

(** With tolerance exponents between -323 and 0, as the signature's -10
    (from -324 on [pow(10., e)] underflows to 0 in [double], and the
    [log] and the cast to [int] that follow leave what C++ defines), and
    an [int] [max_iter] above [INT_MIN], every pass selects an order
    between 1 and 486, well inside the range of [int], and the call stays
    inside its tables: it returns, or throws one of its two errors. *)
Theorem nonpositive_exponents_stay_defined (s : @state RDouble) (t0 : R) :
  (-323 <= log10tolerance <= 0)%Z -> (-323 <= log10rtolerance <= 0)%Z ->
  (INT_MIN < max_iter)%Z ->
  propagate_taylor_J2 u mu veff J2RG2 log10tolerance log10rtolerance
    max_iter max_order s t0 <> Undefined /\
  forall xm : R,
    (1 <= select_order
            (select_eps_m (DBL := RDouble) log10tolerance log10rtolerance xm)
       <= 486)%Z.
Proof.
  intros [Ha' Ha] [Hr' Hr] Hint. split.
  - intros Hcall.
    destruct (first_stop u mu veff J2RG2 log10tolerance log10rtolerance
                max_order (Z.to_nat max_iter) s t0)
      as [(sk & stepk & H)|(k & sk & stepk & Hk & H & Hstop)].
    + rewrite (call_exhausted u mu veff J2RG2 log10tolerance log10rtolerance
                 max_order s t0 Hint H) in Hcall. discriminate.
    + pose proof (call_stops u mu veff J2RG2 log10tolerance log10rtolerance
                    max_iter max_order s t0 Hk H) as Hend.
      destruct (iteration u mu veff J2RG2 log10tolerance log10rtolerance
                  max_order sk stepk) as [e| |s'' h|s'' step' h] eqn:E.
      * rewrite Hend in Hcall. discriminate.
      * apply pass_undefined in E. destruct E as [_ E].
        pose proof (order_ge_1 (state_norm sk) Ha Hr). lia.
      * destruct Hend as [Hend _]. rewrite Hend in Hcall. discriminate.
      * now destruct (Hstop s'' step' h).
  - intros xm. split; [now apply order_ge_1|now apply order_le_486].
Qed.

(** With both tolerance exponents positive the order selected is at most
    0: with [max_iter >= 1] and [max_order >= 0] the first pass passes
    the check against [max_order] and goes on to size its tables by that
    order, where the source reads [x[n - 1]] at [n = 0] or asks a vector
    for a negative count.  The call neither returns nor throws one of its
    two errors. *)
Theorem positive_exponents_leave_tables (s : @state RDouble) (t0 : R) :
  (1 <= log10tolerance)%Z -> (1 <= log10rtolerance)%Z ->
  (1 <= max_iter)%Z -> (0 <= max_order)%Z ->
  propagate_taylor_J2 u mu veff J2RG2 log10tolerance log10rtolerance
    max_iter max_order s t0 = Undefined.
Proof.
  intros Ha Hr Hiter Hmax.
  assert (Hk : (0 < Z.to_nat max_iter)%nat) by lia.
  assert (H : before_pass u mu veff J2RG2 log10tolerance log10rtolerance
                max_order 0 s t0 = Some (s, t0)) by reflexivity.
  pose proof (call_stops u mu veff J2RG2 log10tolerance log10rtolerance
                max_iter max_order s t0 Hk H) as Hend.
  pose proof (order_le_0 (state_norm s) Ha Hr) as Hord.
  assert (E : iteration u mu veff J2RG2 log10tolerance log10rtolerance
                max_order s t0 = IterUndefined)
    by (apply pass_undefined; lia).
  now rewrite E in Hend.
Qed.

(** With a thrust of zero (and [veff] not zero) the mass is the same
    after the call as before, whether the call returns or throws. *)
Theorem zero_thrust_keeps_mass (s s' : @state RDouble) (t0 : R) :
  c0 u = 0 -> c1 u = 0 -> c2 u = 0 -> veff <> 0 ->
  (propagate_taylor_J2 u mu veff J2RG2 log10tolerance log10rtolerance
     max_iter max_order s t0 = Returns s' \/
   exists e,
     propagate_taylor_J2 u mu veff J2RG2 log10tolerance log10rtolerance
       max_iter max_order s t0 = Throws e s') ->
  m0 s' = m0 s.
Proof.
  intros H0 H1 H2 Hv Hcall.
  assert (Hrate : mass_rate u veff = 0).
  { unfold mass_rate. rewrite H0, H1, H2.
    replace (0 * 0 + 0 * 0 + 0 * 0) with 0 by lra. rewrite sqrt_0.
    unfold Rdiv. lra. }
  pose proof (loop_mass u mu veff J2RG2 log10tolerance log10rtolerance
                max_order (Z.to_nat max_iter) 0 s t0 []) as Hl.
  unfold propagate_taylor_J2, run in Hcall.
  destruct (for_loop _ _ _ _ _ _ _ _ _ _ _ _) as [j s'' hs|e s'' hs|].
  - assert (s'' = s') as ->.
    { destruct (max_iter - 1 <? INT_MIN)%Z;
        [destruct Hcall as [H|[e H]]; discriminate|].
      destruct (j >? max_iter - 1)%Z; destruct Hcall as [H|[e H]];
        congruence. }
    rewrite Hrate in Hl. lra.
  - assert (s'' = s') as ->.
    { destruct Hcall as [H|[e' H]]; congruence. }
    rewrite Hrate in Hl. lra.
  - destruct Hcall as [H|[e H]]; discriminate.
Qed.

End OrderRangeOfCalls.

(** ** The step and the series, in exact arithmetic *)

Section ExactStep.

Local Open Scope R_scope.

Lemma clamp_step_opp (h cand : R) :
  clamp_step (DBL := RDouble) (- h) cand
  = - clamp_step (DBL := RDouble) h cand.
Proof.
  unfold clamp_step. exact_arith. unfold Rltb.
  destruct (Rlt_dec (- h) 0) as [H1|H1]; destruct (Rlt_dec h 0) as [H2|H2];
    try lra.
  - rewrite !Rabs_Ropp.
    destruct (Rlt_dec (Rabs h) (Rabs cand)); lra.
  - rewrite !Rabs_Ropp.
    destruct (Rlt_dec (Rabs h) (Rabs cand)); lra.
  - assert (h = 0) as -> by lra. rewrite Ropp_0.
    destruct (Rlt_dec (Rabs 0) (Rabs cand)) as [H|H]; [lra|].
    rewrite Rabs_R0 in H. pose proof (Rabs_pos cand) as Hp.
    assert (Hc : Rabs cand = 0) by lra.
    destruct (Req_dec cand 0) as [->|Hne]; [lra|].
    apply Rabs_no_R0 in Hne. contradiction.
Qed.

(** The step for the duration [-h] is the opposite of the step for [h]:
    the candidate depends on the state, not on the duration. *)
Theorem step_mirrors_duration (s s1 : @state RDouble) (h taken : R)
    (order : Z) (thrust : @vec3 RDouble) (mu veff J2RG2 xm ea er : R)
    (x u : table (DBL := RDouble)) :
  propagate_taylor_J2_step s h order thrust mu veff J2RG2 xm ea er x u
    = Some (taken, s1) ->
  exists s2,
    propagate_taylor_J2_step s (- h) order thrust mu veff J2RG2 xm ea er x u
      = Some (- taken, s2).
Proof.
  intros E.
  assert (Hord : (1 <= order)%Z).
  { unfold propagate_taylor_J2_step in E.
    destruct (Z.ltb_spec order 1); [discriminate|lia]. }
  rewrite (@step_unfold RDouble) in E by exact Hord.
  rewrite (@step_unfold RDouble) by exact Hord.
  match type of E with
  | Some (?t, _) = _ => assert (Hh : t = taken) by congruence
  end.
  rewrite clamp_step_opp, Hh. eexists. reflexivity.
Qed.

(** [xm] is the infinity norm of the state: it bounds the magnitude of
    each of the seven components, and it is the magnitude of one. *)
Theorem state_norm_is_infinity_norm (s : @state RDouble) :
  let xm := state_norm s in
  (Rabs (c0 (r0 s)) <= xm /\ Rabs (c1 (r0 s)) <= xm /\
   Rabs (c2 (r0 s)) <= xm /\ Rabs (c0 (v0 s)) <= xm /\
   Rabs (c1 (v0 s)) <= xm /\ Rabs (c2 (v0 s)) <= xm /\
   Rabs (m0 s) <= xm) /\
  (xm = Rabs (c0 (r0 s)) \/ xm = Rabs (c1 (r0 s)) \/
   xm = Rabs (c2 (r0 s)) \/ xm = Rabs (c0 (v0 s)) \/
   xm = Rabs (c1 (v0 s)) \/ xm = Rabs (c2 (v0 s)) \/
   xm = Rabs (m0 s)).
Proof.
  unfold state_norm. cbv zeta. rewrite !dmax_Rmax.
  change (@dabs RDouble) with Rabs.
  generalize (Rabs (c0 (r0 s))) (Rabs (c1 (r0 s))) (Rabs (c2 (r0 s)))
             (Rabs (c0 (v0 s))) (Rabs (c1 (v0 s))) (Rabs (c2 (v0 s)))
             (Rabs (m0 s)).
  intros a b c d e f g. unfold Rmax.
  repeat destruct (Rle_dec _ _); (split; [repeat split; lra|]); auto 10.
Qed.

(** The sum of the series: [sum_{j = 1..n} x[j][k] * step^j]. *)
Definition series (X : table (DBL := RDouble)) (k n : nat) (step : R) : R :=
  Rsum (map (fun j => get X j k * step ^ j) (seq 1 n)).

Lemma Rsum_snoc (l : list R) (a : R) : Rsum (l ++ [a]) = Rsum l + a.
Proof.
  unfold Rsum. induction l as [|b l IH]; cbn [app fold_right]; [lra|].
  rewrite IH. lra.
Qed.

Lemma series_S (X : table (DBL := RDouble)) (k n : nat) (step : R) :
  series X k (S n) step = series X k n step + get X (S n) k * step ^ (S n).
Proof.
  unfold series. rewrite seq_S, map_app. cbn [map]. rewrite Rsum_snoc.
  reflexivity.
Qed.

Lemma horner_sum (s : @state RDouble) (X : table (DBL := RDouble))
    (n : nat) (step : R) :
  for_range 1 n (horner_step X step) (r0 s, v0 s, step)
  = (Vec3 (c0 (r0 s) + series X 0 n step) (c1 (r0 s) + series X 1 n step)
          (c2 (r0 s) + series X 2 n step),
     Vec3 (c0 (v0 s) + series X 3 n step) (c1 (v0 s) + series X 4 n step)
          (c2 (v0 s) + series X 5 n step),
     step ^ (S n)).
Proof.
  induction n as [|n IH].
  - unfold for_range, series. simpl.
    destruct (r0 s) as [a b c], (v0 s) as [d e f]. cbn [c0 c1 c2].
    repeat f_equal; lra.
  - rewrite for_range_S, IH. unfold horner_step. cbn [c0 c1 c2].
    rewrite !series_S. change (1 + n)%nat with (S n). exact_arith.
    f_equal; [f_equal; f_equal; simpl; lra|simpl; lra].
Qed.

(** The third components after the summation. *)
Lemma advance_third (s : @state RDouble)
    (X : table (DBL := RDouble)) (n : nat) (step : R) :
  c2 (r0 (advance s X n step)) = c2 (r0 s) + series X 2 n step /\
  c2 (v0 (advance s X n step)) = c2 (v0 s) + series X 5 n step.
Proof.
  unfold advance. rewrite horner_sum. split; reflexivity.
Qed.

(** The step sums the truncated series: position and velocity after it
    are those before it plus [sum_{j = 1..order} x[j] * step^j], and the
    mass is the mass before it plus its term of order 1. *)
Theorem advance_is_truncated_series (s : @state RDouble)
    (X : table (DBL := RDouble)) (n : nat) (step : R) :
  advance s X n step =
  State (Vec3 (c0 (r0 s) + series X 0 n step) (c1 (r0 s) + series X 1 n step)
              (c2 (r0 s) + series X 2 n step))
        (Vec3 (c0 (v0 s) + series X 3 n step) (c1 (v0 s) + series X 4 n step)
              (c2 (v0 s) + series X 5 n step))
        (m0 s + get X 1 6 * step).
Proof.
  unfold advance.
  match goal with
  | |- context [for_range 1 n ?f ?a] =>
      replace (for_range 1 n f a) with
        (Vec3 (c0 (r0 s) + series X 0 n step) (c1 (r0 s) + series X 1 n step)
              (c2 (r0 s) + series X 2 n step),
         Vec3 (c0 (v0 s) + series X 3 n step) (c1 (v0 s) + series X 4 n step)
              (c2 (v0 s) + series X 5 n step),
         step ^ (S n))
        by (symmetry; apply horner_sum)
  end.
  reflexivity.
Qed.

End ExactStep.

(** ** More on the coefficient generator *)

Section GeneratorMore.

Context {DBL : Double}.
Local Open Scope dbl_scope.

Variables t0 t1 t2 mu veff J2RG2 : D.

Let coeffs := taylor_coefficients t0 t1 t2 mu veff J2RG2.

(** The passes from the order [n] on leave the rows [0..n] of [x] and
    the rows below [n] of [u] as they are. *)
Lemma coeffs_rows_below (d n i : nat) (xu : table * table) :
  ((i <= n)%nat ->
   nth i (fst (coeffs (n + d) xu)) [] = nth i (fst (coeffs n xu)) []) /\
  ((i < n)%nat ->
   nth i (snd (coeffs (n + d) xu)) [] = nth i (snd (coeffs n xu)) []).
Proof.
  induction d as [|d [IHx IHu]].
  - rewrite Nat.add_0_r. split; reflexivity.
  - replace (n + S d)%nat with (S (n + d)) by lia.
    unfold coeffs in *.
    rewrite (taylor_coefficients_S t0 t1 t2 mu veff J2RG2 (n + d)).
    rewrite gen_body_fst, gen_body_snd. split; intros Hi.
    + rewrite gen_x_other by lia. now apply IHx.
    + rewrite gen_u_other_rows by lia. now apply IHu.
Qed.

(** The coefficients of the orders up to [N] are the same whatever the
    target order, [N] or higher: [x[0..N]] and [u[0..N-1]] after the
    generator has run to [N + d] are those after it has run to [N]; and
    [x[0]] is left as the generator found it. *)
Theorem lower_orders_do_not_depend_on_target (N d : nat)
    (xu : table * table) :
  (forall i, (i <= N)%nat ->
     nth i (fst (taylor_coefficients t0 t1 t2 mu veff J2RG2 (N + d) xu)) []
     = nth i (fst (taylor_coefficients t0 t1 t2 mu veff J2RG2 N xu)) []) /\
  (forall i, (i < N)%nat ->
     nth i (snd (taylor_coefficients t0 t1 t2 mu veff J2RG2 (N + d) xu)) []
     = nth i (snd (taylor_coefficients t0 t1 t2 mu veff J2RG2 N xu)) []) /\
  nth 0 (fst (taylor_coefficients t0 t1 t2 mu veff J2RG2 N xu)) []
    = nth 0 (fst xu) [].
Proof.
  split; [|split].
  - intros i Hi. now apply (coeffs_rows_below d N i xu).
  - intros i Hi. now apply (coeffs_rows_below d N i xu).
  - destruct (coeffs_rows_below N 0 0 xu) as [H _]. apply H. lia.
Qed.

(** *** Columns and shapes under the statements *)

Definition keeps_col (n c : nat) (s : stmt) : Prop :=
  forall t, get (s t) n c = get t n c.

Definition keeps_shape (s : stmt) : Prop :=
  forall t i, length (nth i (s t) []) = length (nth i t []).

Lemma get_set_col (t : table) (n k c : nat) (v : D) :
  k <> c -> get (set t n k v) n c = get t n c.
Proof.
  intros H. unfold get. rewrite row_set_same. now apply nth_update_other.
Qed.

Lemma keeps_col_assign (n k c : nat) (e : table -> D) :
  k <> c -> keeps_col n c (assign n k e).
Proof. intros H t. unfold assign. now apply get_set_col. Qed.

Lemma keeps_col_conv (n k c p q : nat) :
  k <> c -> keeps_col n c (conv n k p q).
Proof.
  intros H t. unfold conv.
  apply (for_range_ind (fun t' => get t' n c = get t n c)); [reflexivity|].
  intros j t' _ Ht. unfold conv_step. now rewrite get_set_col.
Qed.

Lemma keeps_col_pow_rec (e one : D) (n k c p : nat) :
  k <> c -> keeps_col n c (pow_rec e one n k p).
Proof.
  intros H t. unfold pow_rec. cbv zeta. rewrite get_set_col by exact H.
  apply (for_range_ind (fun t' => get t' n c = get t n c)); [reflexivity|].
  intros j t' _ Ht. unfold pow_step. now rewrite get_set_col.
Qed.

Lemma keeps_col_then (n c : nat) (s1 s2 : stmt) :
  keeps_col n c s1 -> keeps_col n c s2 -> keeps_col n c (then_ s1 s2).
Proof. intros H1 H2 t. unfold then_. now rewrite H2, H1. Qed.

Lemma keeps_col_if (n c : nat) (b : bool) (s1 s2 : stmt) :
  keeps_col n c s1 -> keeps_col n c s2 ->
  keeps_col n c (if b then s1 else s2).
Proof. now destruct b. Qed.

Lemma keeps_shape_assign (n k : nat) (e : table -> D) :
  keeps_shape (assign n k e).
Proof. intros t i. unfold assign. apply row_length_set. Qed.

Lemma keeps_shape_conv (n k p q : nat) : keeps_shape (conv n k p q).
Proof.
  intros t i. unfold conv.
  apply (for_range_ind
           (fun t' => length (nth i t' []) = length (nth i t [])));
    [reflexivity|].
  intros j t' _ Ht. unfold conv_step.
  etransitivity; [apply row_length_set|exact Ht].
Qed.

Lemma keeps_shape_pow_rec (e one : D) (n k p : nat) :
  keeps_shape (pow_rec e one n k p).
Proof.
  intros t i. unfold pow_rec. cbv zeta.
  etransitivity; [apply row_length_set|].
  apply (for_range_ind
           (fun t' => length (nth i t' []) = length (nth i t [])));
    [reflexivity|].
  intros j t' _ Ht. unfold pow_step.
  etransitivity; [apply row_length_set|exact Ht].
Qed.

Lemma keeps_shape_then (s1 s2 : stmt) :
  keeps_shape s1 -> keeps_shape s2 -> keeps_shape (then_ s1 s2).
Proof.
  intros H1 H2 t i. unfold then_.
  etransitivity; [apply H2|apply H1].
Qed.

Lemma keeps_shape_if (b : bool) (s1 s2 : stmt) :
  keeps_shape s1 -> keeps_shape s2 -> keeps_shape (if b then s1 else s2).
Proof. now destruct b. Qed.

Ltac shape_statement :=
  first
    [ apply keeps_shape_conv
    | apply keeps_shape_pow_rec
    | apply keeps_shape_assign
    | apply keeps_shape_if; shape_statement ].

Lemma gen_u_keeps_shape (n : nat) (x : table) :
  keeps_shape (gen_u t0 t1 t2 mu J2RG2 n x).
Proof.
  unfold gen_u.
  repeat (apply keeps_shape_then; [shape_statement|]).
  shape_statement.
Qed.

(** A statement that leaves [v] in [u[n][c]], on a row that has the
    column. *)
Definition sets_col (n c : nat) (v : D) (s : stmt) : Prop :=
  forall t, (c < length (nth n t []))%nat -> get (s t) n c = v.

Lemma sets_col_skip (n c : nat) (v : D) (s1 s2 : stmt) :
  keeps_shape s1 -> sets_col n c v s2 -> sets_col n c v (then_ s1 s2).
Proof.
  intros H1 H2 t Ht. unfold then_. apply H2. now rewrite H1.
Qed.

Lemma sets_col_here (n c : nat) (v : D) (s2 : stmt) :
  keeps_col n c s2 ->
  sets_col n c v (then_ (assign n c (fun _ => v)) s2).
Proof.
  intros H2 t Ht. unfold then_, assign. rewrite H2.
  now apply get_set_same.
Qed.

Ltac col_statement :=
  first
    [ apply keeps_col_conv; discriminate
    | apply keeps_col_pow_rec; discriminate
    | apply keeps_col_assign; discriminate
    | apply keeps_col_if; col_statement ].

Ltac col_rest :=
  repeat (apply keeps_col_then; [col_statement|]); col_statement.

(** The slots 3, 4 and 5 of [u[n]] hold the velocity coefficients of
    [x[n]] when the pass is over. *)
Lemma gen_u_velocity (n : nat) (x u : table) :
  (5 < length (nth n u []))%nat ->
  get (gen_u t0 t1 t2 mu J2RG2 n x u) n 3 = get x n 3 /\
  get (gen_u t0 t1 t2 mu J2RG2 n x u) n 4 = get x n 4 /\
  get (gen_u t0 t1 t2 mu J2RG2 n x u) n 5 = get x n 5.
Proof.
  intros Hw.
  assert (H3 : sets_col n 3 (get x n 3) (gen_u t0 t1 t2 mu J2RG2 n x)).
  { unfold gen_u.
    do 3 (apply sets_col_skip; [apply keeps_shape_assign|]).
    apply sets_col_here. col_rest. }
  assert (H4 : sets_col n 4 (get x n 4) (gen_u t0 t1 t2 mu J2RG2 n x)).
  { unfold gen_u.
    do 4 (apply sets_col_skip; [apply keeps_shape_assign|]).
    apply sets_col_here. col_rest. }
  assert (H5 : sets_col n 5 (get x n 5) (gen_u t0 t1 t2 mu J2RG2 n x)).
  { unfold gen_u.
    do 5 (apply sets_col_skip; [apply keeps_shape_assign|]).
    apply sets_col_here. col_rest. }
  repeat split; [apply H3|apply H4|apply H5];
    (eapply Nat.le_lt_trans; [|exact Hw]); repeat constructor.
Qed.

Lemma coeffs_u_row_length (N i : nat) (xu : table * table) :
  length (nth i (snd (coeffs N xu)) []) = length (nth i (snd xu) []).
Proof.
  induction N as [|N IH]; [reflexivity|].
  unfold coeffs in *.
  rewrite (taylor_coefficients_S t0 t1 t2 mu veff J2RG2 N), gen_body_snd.
  now rewrite gen_u_keeps_shape.
Qed.

(** The position coefficient of the order [n + 1] is the velocity
    coefficient of the order [n] over [n + 1], whatever the arithmetic:
    [x[n+1][k] = 1. / (n + 1) * x[n][k+3]] for [k = 0, 1, 2] and every
    [n < N], on tables of the sizes the controller allocates. *)
Theorem position_follows_velocity (N n : nat) (x u : table) :
  (n < N)%nat ->
  (forall i, (i <= N)%nat -> length (nth i x []) = 7%nat) ->
  (forall i, (i < N)%nat -> length (nth i u []) = 34%nat) ->
  get (fst (taylor_coefficients t0 t1 t2 mu veff J2RG2 N (x, u))) (n + 1) 0
    = dlit 1 / of_nat (n + 1)
      * get (fst (taylor_coefficients t0 t1 t2 mu veff J2RG2 N (x, u))) n 3 /\
  get (fst (taylor_coefficients t0 t1 t2 mu veff J2RG2 N (x, u))) (n + 1) 1
    = dlit 1 / of_nat (n + 1)
      * get (fst (taylor_coefficients t0 t1 t2 mu veff J2RG2 N (x, u))) n 4 /\
  get (fst (taylor_coefficients t0 t1 t2 mu veff J2RG2 N (x, u))) (n + 1) 2
    = dlit 1 / of_nat (n + 1)
      * get (fst (taylor_coefficients t0 t1 t2 mu veff J2RG2 N (x, u))) n 5.
Proof.
  intros Hn Hx Hu.
  destruct (coeffs_stable t0 t1 t2 mu veff J2RG2 (x, u) Hn) as [_ Sx].
  assert (Hrow : nth n (fst (taylor_coefficients t0 t1 t2 mu veff J2RG2 N
                               (x, u))) []
                 = nth n (fst (coeffs n (x, u))) []).
  { replace N with (n + (N - n))%nat by lia.
    apply (coeffs_rows_below (N - n) n n (x, u)). lia. }
  unfold get at 1 3 5. rewrite Sx. unfold get at 1 2 3. rewrite Hrow.
  rewrite (taylor_coefficients_S t0 t1 t2 mu veff J2RG2 n), gen_body_fst.
  fold coeffs. rewrite gen_x_row.
  rewrite update_all_7
    by (unfold coeffs; rewrite coeffs_row_length; apply Hx; lia).
  destruct (gen_u_velocity n (fst (coeffs n (x, u))) (snd (coeffs n (x, u))))
    as (H3 & H4 & H5).
  { rewrite coeffs_u_row_length. simpl snd. rewrite Hu; lia. }
  cbn [nth]. rewrite H3, H4, H5. repeat split; reflexivity.
Qed.

End GeneratorMore.

(** ** The first coefficients are the equations of motion *)

Section EquationsOfMotion.

Local Open Scope R_scope.

Ltac eval_first_pass :=
  cbv [taylor_coefficients gen_body gen_u gen_x then_ assign set get update nth
       conv conv_step pow_rec pow_step for_range fold_left seq Nat.eqb Nat.add
       Nat.sub repeat dumb dumb2 init_x fst snd r0 v0 m0 c0 c1 c2
       alpha beta sqrtT of_nat Z.of_nat Pos.of_succ_nat Q2R Qnum Qden
       dadd dsub dmul ddiv dneg dsqrt dabs dlog dceil dpow dltb dleb dlit
       of_int to_int M_E D RDouble].

(** In exact arithmetic, on the tables of a step of any order [N + 1],
    the coefficients of order 1 are the right-hand side of the equations
    of motion at the state: the velocity; the acceleration of the central
    body with its J2 term, [(1 - 5 z^2/r^2)] on [x] and [y] and
    [(3 - 5 z^2/r^2)] on [z], plus thrust over mass; and the mass rate
    [- |thrust| / veff]. *)
Theorem first_order_is_equations_of_motion (s : @state RDouble) (N : nat)
    (T0 T1 T2 mu veff J2RG2 : R) :
  let X := fst (taylor_coefficients (DBL := RDouble) T0 T1 T2 mu veff J2RG2
                  (S N) (init_x s (repeat dumb (S N + 1)),
                         repeat dumb2 (S N))) in
  let x := c0 (r0 s) in
  let y := c1 (r0 s) in
  let z := c2 (r0 s) in
  let r2 := x * x + y * y + z * z in
  let k := - sqrt (1 / (r2 * r2 * r2)) * mu in
  let j := 3 / 2 * J2RG2 * (1 / r2) in
  get X 1 0 = c0 (v0 s) /\
  get X 1 1 = c1 (v0 s) /\
  get X 1 2 = c2 (v0 s) /\
  get X 1 3 = x * k * (1 + j * (1 - 5 * (z * z * (1 / r2))))
              + 1 / m0 s * T0 /\
  get X 1 4 = y * k * (1 + j * (1 - 5 * (z * z * (1 / r2))))
              + 1 / m0 s * T1 /\
  get X 1 5 = z * k * (1 + j * (3 - 5 * (z * z * (1 / r2))))
              + 1 / m0 s * T2 /\
  get X 1 6 = - sqrt (T0 * T0 + T1 * T1 + T2 * T2) / veff.
Proof.
  intros X x y z r2 k j.
  assert (HX : nth 1%nat X []
               = nth 1%nat
                   (fst (taylor_coefficients (DBL := RDouble)
                           T0 T1 T2 mu veff J2RG2 1
                           (init_x s (repeat dumb (S (S N))),
                            repeat dumb2 (S N)))) []).
  { unfold X. replace (S N + 1)%nat with (S (S N)) by lia.
    replace (S N) with (1 + N)%nat at 1 by lia.
    apply (@coeffs_rows_below RDouble T0 T1 T2 mu veff J2RG2 N 1 1). lia. }
  unfold get. rewrite HX. clear HX X.
  subst x y z r2 k j. destruct s as [[x y z] [vx vy vz] m].
  eval_first_pass. unfold Rdiv. rewrite ?Rinv_1.
  cbv [D RDouble] in *.
  rewrite ?Rplus_0_l, ?Rmult_1_l, ?Rmult_1_r.
  repeat split; ring.
Qed.

End EquationsOfMotion.

(** ** Motion in the equatorial plane *)

Lemma nth_update_spec {A : Type} (l : list A) (k c : nat) (v d : A) :
  nth c (update k (fun _ => v) l) d = nth c l d \/
  (c = k /\ nth c (update k (fun _ => v) l) d = v).
Proof.
  revert k c. induction l as [|a l IH]; intros k c.
  - left. now destruct k.
  - destruct k as [|k], c as [|c]; simpl; auto.
    destruct (IH k c) as [E|[-> E]]; auto.
Qed.

Lemma get_set_spec {DBL : Double} (t : table) (n k i c : nat) (v : D) :
  get (set t n k v) i c = get t i c \/
  (i = n /\ c = k /\ get (set t n k v) i c = v).
Proof.
  unfold get. destruct (Nat.eq_dec n i) as [<-|Hne].
  - rewrite row_set_same.
    destruct (nth_update_spec (nth n t []) k c v (of_int 0)) as [E|[-> E]];
      auto.
  - rewrite row_set_other by exact Hne. auto.
Qed.

Lemma nth_repeat_spec {A : Type} (a d : A) (n i : nat) :
  nth i (repeat a n) d = a \/ nth i (repeat a n) d = d.
Proof.
  revert i. induction n as [|n IH]; intros [|i]; simpl; auto.
Qed.

Section Equatorial.

Local Open Scope R_scope.

(** The slots of [u] that carry the third coordinate as a factor: [z],
    [vz], [z^2], [z * u13], [z^2 / r^2], the third component of the
    gravity and of the acceleration. *)
Definition planar_cols : list nat := [2; 5; 9; 16; 21; 30; 33]%nat.

Definition planar_u (t : @table RDouble) : Prop :=
  forall i c, In c planar_cols -> get t i c = 0.

Definition planar_x (t : @table RDouble) : Prop :=
  forall i, get t i 2 = 0 /\ get t i 5 = 0.

Definition keeps (P : @table RDouble -> Prop) (s : @stmt RDouble) : Prop :=
  forall t, P t -> P (s t).

Lemma planar_u_set (t : @table RDouble) (n k : nat) (v : R) :
  planar_u t -> (In k planar_cols -> v = 0) -> planar_u (set t n k v).
Proof.
  intros H Hv i c Hc.
  destruct (get_set_spec t n k i c v) as [E|(-> & -> & E)]; rewrite E; auto.
Qed.

Lemma planar_x_set (t : @table RDouble) (n k : nat) (v : R) :
  planar_x t -> (k = 2%nat \/ k = 5%nat -> v = 0) -> planar_x (set t n k v).
Proof.
  intros H Hv i. split.
  - destruct (get_set_spec t n k i 2 v) as [E|(-> & <- & E)]; rewrite E;
      [apply H|auto].
  - destruct (get_set_spec t n k i 5 v) as [E|(-> & <- & E)]; rewrite E;
      [apply H|auto].
Qed.

Lemma keeps_assign (n k : nat) (e : @table RDouble -> R) :
  (forall t, planar_u t -> In k planar_cols -> e t = 0) ->
  keeps planar_u (assign n k e).
Proof. intros He t Ht. unfold assign. apply planar_u_set; auto. Qed.

Lemma keeps_conv (n c a b : nat) :
  (In c planar_cols -> In a planar_cols \/ In b planar_cols) ->
  keeps planar_u (conv n c a b).
Proof.
  intros Hc t Ht. unfold conv.
  apply (for_range_ind planar_u); [exact Ht|].
  intros j t' _ Ht'. unfold conv_step. apply planar_u_set; [exact Ht'|].
  intros Hin. rewrite (Ht' n c Hin).
  destruct (Hc Hin) as [Ha|Hb].
  - rewrite (Ht' j a Ha). exact_arith. lra.
  - rewrite (Ht' (n - j)%nat b Hb). exact_arith. lra.
Qed.

Lemma keeps_pow_rec (e one : R) (n c a : nat) :
  ~ In c planar_cols -> keeps planar_u (pow_rec (DBL := RDouble) e one n c a).
Proof.
  intros Hc t Ht. unfold pow_rec. cbv zeta.
  apply planar_u_set; [|tauto].
  apply (for_range_ind planar_u); [exact Ht|].
  intros j t' _ Ht'. unfold pow_step. apply planar_u_set; [exact Ht'|tauto].
Qed.

Lemma keeps_then (P : @table RDouble -> Prop) (s1 s2 : @stmt RDouble) :
  keeps P s1 -> keeps P s2 -> keeps P (then_ s1 s2).
Proof. intros H1 H2 t Ht. unfold then_. auto. Qed.

Lemma keeps_if (P : @table RDouble -> Prop) (b : bool)
    (s1 s2 : @stmt RDouble) :
  keeps P s1 -> keeps P s2 -> keeps P (if b then s1 else s2).
Proof. now destruct b. Qed.

Ltac planar_statement :=
  first
    [ apply keeps_conv; cbv [planar_cols In]; lia
    | apply keeps_pow_rec; cbv [planar_cols In]; lia
    | apply keeps_assign;
      let H := fresh in intros ? ? H; cbv [planar_cols In] in H; lia
    | apply keeps_if; planar_statement ].

(** With no thrust along the third axis, a pass of the generator over
    coefficients that have no third coordinate gives [u] none. *)
Lemma gen_u_planar (T0 T1 mu J2RG2 : R) (n : nat) (x u : @table RDouble) :
  planar_x x -> planar_u u ->
  planar_u (gen_u (DBL := RDouble) T0 T1 0 mu J2RG2 n x u).
Proof.
  intros Hx. revert u. change (keeps planar_u (gen_u T0 T1 0 mu J2RG2 n x)).
  unfold gen_u.
  do 2 (apply keeps_then; [planar_statement|]).
  apply keeps_then; [apply keeps_assign; intros; apply Hx|].
  do 2 (apply keeps_then; [planar_statement|]).
  apply keeps_then; [apply keeps_assign; intros; apply Hx|].
  repeat (apply keeps_then; [planar_statement|]).
  apply keeps_assign. intros t Ht _.
  rewrite (Ht n 30%nat) by (cbv [planar_cols In]; auto 10).
  exact_arith. lra.
Qed.

Lemma gen_x_planar (T0 T1 T2 veff : R) (n : nat) (x u : @table RDouble) :
  planar_x x -> planar_u u ->
  planar_x (gen_x (DBL := RDouble) T0 T1 T2 veff n x u).
Proof.
  intros Hx Hu. unfold gen_x. cbv zeta.
  repeat (apply planar_x_set; [|intros [E|E]; try discriminate E]);
    [exact Hx| |].
  - rewrite (Hu n 5%nat) by (cbv [planar_cols In]; auto 10).
    exact_arith. lra.
  - rewrite (Hu n 33%nat) by (cbv [planar_cols In]; auto 10).
    exact_arith. lra.
Qed.

Lemma coeffs_planar (T0 T1 mu veff J2RG2 : R) (N : nat)
    (xu : @table RDouble * @table RDouble) :
  planar_x (fst xu) -> planar_u (snd xu) ->
  planar_x (fst (taylor_coefficients (DBL := RDouble)
                   T0 T1 0 mu veff J2RG2 N xu)) /\
  planar_u (snd (taylor_coefficients (DBL := RDouble)
                   T0 T1 0 mu veff J2RG2 N xu)).
Proof.
  intros Hx Hu. induction N as [|N [IHx IHu]]; [split; assumption|].
  rewrite (@taylor_coefficients_S RDouble), gen_body_fst, gen_body_snd.
  assert (Hu' : planar_u
                  (gen_u (DBL := RDouble) T0 T1 0 mu J2RG2 N
                     (fst (taylor_coefficients T0 T1 0 mu veff J2RG2 N xu))
                     (snd (taylor_coefficients T0 T1 0 mu veff J2RG2 N xu))))
    by now apply gen_u_planar.
  split; [now apply gen_x_planar|exact Hu'].
Qed.

Lemma zeros_get (w k i c : nat) :
  get (DBL := RDouble) (repeat (repeat (of_int 0) w) k) i c = 0.
Proof.
  unfold get.
  assert (H : forall r : list R,
             r = repeat (@of_int RDouble 0) w \/ r = [] ->
             nth c r (@of_int RDouble 0) = 0).
  { intros r [-> | ->]; [|now destruct c].
    destruct (nth_repeat_spec (@of_int RDouble 0) (@of_int RDouble 0) w c)
      as [E|E]; exact E. }
  apply H. apply nth_repeat_spec.
Qed.

Lemma init_x_planar (s : @state RDouble) (k : nat) :
  c2 (r0 s) = 0 -> c2 (v0 s) = 0 -> planar_x (init_x s (repeat dumb k)).
Proof.
  intros Hz Hvz. unfold init_x. cbv zeta.
  repeat (apply planar_x_set; [|intros [E|E]; try discriminate E; assumption]).
  intros i. split; apply zeros_get.
Qed.

Lemma series_zero (X : @table RDouble) (k n : nat) (step : R) :
  (forall i, get X i k = 0) -> series X k n step = 0.
Proof.
  intros H. induction n as [|n IH]; [reflexivity|].
  rewrite series_S, IH, H. lra.
Qed.

Lemma step_planar (s s' : @state RDouble) (h taken : R) (order : Z)
    (T0 T1 mu veff J2RG2 xm ea er : R) (a b : nat) :
  c2 (r0 s) = 0 -> c2 (v0 s) = 0 ->
  propagate_taylor_J2_step s h order (Vec3 T0 T1 0) mu veff J2RG2 xm ea er
    (repeat dumb a) (repeat dumb2 b) = Some (taken, s') ->
  c2 (r0 s') = 0 /\ c2 (v0 s') = 0.
Proof.
  intros Hz Hvz E.
  assert (Hord : (1 <= order)%Z).
  { unfold propagate_taylor_J2_step in E.
    destruct (Z.ltb_spec order 1); [discriminate|lia]. }
  rewrite (@step_unfold RDouble) in E by exact Hord.
  match type of E with
  | Some (_, ?t) = _ => assert (Hs : t = s') by congruence
  end.
  clear E. subst s'.
  match goal with
  | |- context [advance s ?X ?n ?st] =>
      destruct (advance_third s X n st) as [-> ->]
  end.
  destruct (coeffs_planar T0 T1 mu veff J2RG2 (Z.to_nat order)
              (init_x s (repeat dumb a), repeat dumb2 b)) as [Hx _].
  - now apply init_x_planar.
  - intros i c _. apply zeros_get.
  - rewrite !series_zero by (intros i; apply Hx). lra.
Qed.

Variables T0 T1 : R.
Variables mu veff J2RG2 : R.
Variables log10tolerance log10rtolerance : Z.
Variables max_iter max_order : Z.

Let thrust : @vec3 RDouble := Vec3 T0 T1 0.

Lemma pass_planar (s : @state RDouble) (step : R) :
  c2 (r0 s) = 0 -> c2 (v0 s) = 0 ->
  match
    iteration thrust mu veff J2RG2 log10tolerance log10rtolerance max_order
      s step
  with
  | IterBreak s' _ | IterNext s' _ _ => c2 (r0 s') = 0 /\ c2 (v0 s') = 0
  | _ => True
  end.
Proof.
  intros Hz Hvz. unfold iteration. cbv zeta.
  destruct (_ >? max_order)%Z; [exact I|].
  destruct (propagate_taylor_J2_step _ _ _ _ _ _ _ _ _ _ _ _)
    as [[h s']|] eqn:E; [|exact I].
  apply step_planar in E; [|assumption..].
  destruct (dgeb _ _); exact E.
Qed.

Lemma loop_planar (fuel : nat) (j : Z) (s : @state RDouble) (step : R)
    (hs : list R) :
  c2 (r0 s) = 0 -> c2 (v0 s) = 0 ->
  match
    for_loop thrust mu veff J2RG2 log10tolerance log10rtolerance max_order
      fuel j s step hs
  with
  | LoopExit _ s' _ | LoopThrow _ s' _ => c2 (r0 s') = 0 /\ c2 (v0 s') = 0
  | LoopUndefined => True
  end.
Proof.
  revert j s step hs. induction fuel as [|fuel IH]; intros j s step hs Hz Hvz.
  - simpl. auto.
  - simpl for_loop. pose proof (pass_planar s step Hz Hvz) as Hp.
    destruct (iteration thrust mu veff J2RG2 log10tolerance log10rtolerance
                max_order s step) as [e| |s' h|s' step' h]; auto.
    destruct Hp. now apply IH.
Qed.

(** In exact arithmetic a call that starts in the equatorial plane, with
    no velocity and no thrust across it, ends in it: the third components
    of position and velocity are still 0, whether the call returns or
    throws. *)
Theorem equatorial_motion_stays_equatorial (s s' : @state RDouble)
    (t0 : R) :
  c2 (r0 s) = 0 -> c2 (v0 s) = 0 ->
  (propagate_taylor_J2 (Vec3 T0 T1 0) mu veff J2RG2 log10tolerance
     log10rtolerance max_iter max_order s t0 = Returns s' \/
   exists e,
     propagate_taylor_J2 (Vec3 T0 T1 0) mu veff J2RG2 log10tolerance
       log10rtolerance max_iter max_order s t0 = Throws e s') ->
  c2 (r0 s') = 0 /\ c2 (v0 s') = 0.
Proof.
  intros Hz Hvz Hcall.
  pose proof (loop_planar (Z.to_nat max_iter) 0 s t0 [] Hz Hvz) as Hl.
  unfold propagate_taylor_J2, run in Hcall. fold thrust in Hcall.
  destruct (for_loop _ _ _ _ _ _ _ _ _ _ _ _) as [j s'' hs|e s'' hs|].
  - assert (s'' = s') as ->.
    { destruct (max_iter - 1 <? INT_MIN)%Z;
        [destruct Hcall as [H|[e H]]; discriminate|].
      destruct (j >? max_iter - 1)%Z; destruct Hcall as [H|[e H]];
        congruence. }
    exact Hl.
  - assert (s'' = s') as ->.
    { destruct Hcall as [H|[e' H]]; congruence. }
    exact Hl.
  - destruct Hcall as [H|[e H]]; discriminate.
Qed.

End Equatorial.

(** ** The scratch table [x] *)

Section Scratch.

Context {DBL : Double}.
Local Open Scope dbl_scope.

Definition same_rows_to (n : nat) (a b : table) : Prop :=
  forall i, (i <= n)%nat -> nth i a [] = nth i b [].

Lemma init_x_row_0 (s : state) (x : table) :
  length (nth 0 x []) = 7%nat ->
  nth 0 (init_x s x) []
  = [c0 (r0 s); c1 (r0 s); c2 (r0 s); c0 (v0 s); c1 (v0 s); c2 (v0 s); m0 s].
Proof.
  intros H. unfold init_x. cbv zeta. rewrite !row_set_same.
  now apply update_all_7.
Qed.

Lemma gen_u_ext (t0 t1 t2 mu J2RG2 : D) (n : nat) (x x' : table) :
  nth n x [] = nth n x' [] ->
  gen_u t0 t1 t2 mu J2RG2 n x = gen_u t0 t1 t2 mu J2RG2 n x'.
Proof.
  intros Hx.
  assert (Hg : forall k, get x n k = get x' n k)
    by (intros k; unfold get; now rewrite Hx).
  unfold gen_u. rewrite !Hg. reflexivity.
Qed.

Lemma norm_row_ext (a b : table) (n : nat) :
  nth n a [] = nth n b [] -> norm_row a n = norm_row b n.
Proof. intros H. unfold norm_row, get. now rewrite H. Qed.

Lemma advance_ext (s : state) (a b : table) (n : nat) (step : D) :
  (1 <= n)%nat -> same_rows_to n a b ->
  advance s a n step = advance s b n step.
Proof.
  intros Hn H. unfold advance.
  assert (E : for_range 1 n (horner_step a step) (r0 s, v0 s, step)
              = for_range 1 n (horner_step b step) (r0 s, v0 s, step)).
  { apply (for_range_rel eq); [reflexivity|].
    intros j acc acc' Hj <-. destruct acc as [[r v] sp].
    unfold horner_step, get. now rewrite (H j) by lia. }
  rewrite E. unfold get. now rewrite (H 1%nat) by lia.
Qed.

Lemma coeffs_same_rows (t0 t1 t2 mu veff J2RG2 : D) (N : nat)
    (x x' u : table) :
  nth 0 x [] = nth 0 x' [] ->
  (forall i, (i <= N)%nat -> length (nth i x []) = 7%nat) ->
  (forall i, (i <= N)%nat -> length (nth i x' []) = 7%nat) ->
  same_rows_to N
    (fst (taylor_coefficients t0 t1 t2 mu veff J2RG2 N (x, u)))
    (fst (taylor_coefficients t0 t1 t2 mu veff J2RG2 N (x', u))) /\
  snd (taylor_coefficients t0 t1 t2 mu veff J2RG2 N (x, u))
  = snd (taylor_coefficients t0 t1 t2 mu veff J2RG2 N (x', u)).
Proof.
  intros H0. induction N as [|N IH]; intros Hx Hx'.
  - split; [|reflexivity]. intros i Hi.
    replace i with 0%nat by lia. exact H0.
  - destruct IH as [IHx IHu]; [intros; apply Hx; lia|intros; apply Hx'; lia|].
    rewrite !(taylor_coefficients_S t0 t1 t2 mu veff J2RG2 N).
    rewrite !gen_body_fst, !gen_body_snd.
    rewrite (@gen_u_ext t0 t1 t2 mu J2RG2 N _ _ (IHx N (le_n N))), IHu.
    split; [|reflexivity].
    intros i Hi. destruct (Nat.eq_dec i (N + 1)) as [->|Hne].
    + rewrite !gen_x_row.
      rewrite !update_all_7; [reflexivity| |];
        rewrite coeffs_row_length; [apply Hx'|apply Hx]; lia.
    + rewrite !gen_x_other by exact Hne. apply IHx. lia.
Qed.

(** The step does not read what the caller has left in the scratch table
    [x]: on two tables whose rows [0..order] have their seven entries, and
    the same [u], it takes the same step and gives the same state.  (The
    table [u] is another matter: the Cauchy products add to what its rows
    hold.) *)
Theorem step_ignores_scratch_x (s : state) (h : D) (order : Z)
    (thrust : vec3) (mu veff J2RG2 xm ea er : D) (x x' u : table) :
  (forall i, (i <= Z.to_nat order)%nat -> length (nth i x []) = 7%nat) ->
  (forall i, (i <= Z.to_nat order)%nat -> length (nth i x' []) = 7%nat) ->
  propagate_taylor_J2_step s h order thrust mu veff J2RG2 xm ea er x u
  = propagate_taylor_J2_step s h order thrust mu veff J2RG2 xm ea er x' u.
Proof.
  intros Hx Hx'.
  destruct (Z.ltb_spec order 1) as [Hlt|Hge].
  - unfold propagate_taylor_J2_step.
    destruct (Z.ltb_spec order 1); [reflexivity|lia].
  - rewrite !(@step_unfold DBL) by exact Hge.
    destruct (@coeffs_same_rows (c0 thrust) (c1 thrust) (c2 thrust)
                mu veff J2RG2 (Z.to_nat order) (init_x s x) (init_x s x') u)
      as [Hrows _].
    + rewrite !init_x_row_0; [reflexivity|apply Hx'; lia|apply Hx; lia].
    + intros i Hi. rewrite init_x_row_length. now apply Hx.
    + intros i Hi. rewrite init_x_row_length. now apply Hx'.
    + rewrite (@norm_row_ext _ _ _ (Hrows (Z.to_nat order) (le_n _))).
      rewrite (@norm_row_ext _ _ _
                 (Hrows (Z.to_nat order - 1)%nat ltac:(lia))).
      rewrite (@advance_ext s _ _ (Z.to_nat order) _ ltac:(lia) Hrows).
      reflexivity.
Qed.

End Scratch.

(** ** The properties at a call *)

Section Instances.

Local Open Scope R_scope.


Lemma C10_errors_before_any_step_witness :
  propagate_taylor_J2 (Vec3 0 0 0) 1 1 0 (-10) (-10) 0 3000 circular_orbit 1
    = Throws IterationLimitExceeded circular_orbit.
Proof.
  apply (proj1 (@C10_errors_before_any_step RDouble (@Vec3 RDouble 0 0 0)
                  1 1 0 (-10)%Z (-10)%Z 0%Z 3000%Z circular_orbit 1)).
  unfold INT_MIN. lia.
Defined.

Lemma returned_call_covers_duration_witness :
  Rsum (steps_taken (Vec3 0 0 0) 1 1 0 0 0 100000 3000 sB (/ 16)) = / 16 /\
  m0 sOut = m0 sB - mass_rate (Vec3 0 0 0) 1 * / 16.
Proof.
  apply (@returned_call_covers_duration (@Vec3 RDouble 0 0 0) 1 1 0 0%Z 0%Z
           100000 3000 sB sOut (/ 16)).
  exact (proj1 (@runB_call 100000 3000 ltac:(lia) ltac:(lia))).
Defined.

Lemma nonpositive_exponents_stay_defined_witness :
  propagate_taylor_J2 (Vec3 0 0 0) 1 1 0 (-10) (-10) 100000 3000
    circular_orbit 1 <> Undefined /\
  forall xm : R,
    (1 <= select_order (select_eps_m (DBL := RDouble) (-10) (-10) xm)
       <= 486)%Z.
Proof.
  apply (@nonpositive_exponents_stay_defined (@Vec3 RDouble 0 0 0) 1 1 0
           (-10)%Z (-10)%Z 100000 3000 circular_orbit 1);
    unfold INT_MIN; lia.
Defined.

Lemma positive_exponents_leave_tables_witness :
  propagate_taylor_J2 (Vec3 0 0 0) 1 1 0 1 1 100000 3000
    circular_orbit 1 = Undefined.
Proof.
  apply (@positive_exponents_leave_tables (@Vec3 RDouble 0 0 0) 1 1 0
           1%Z 1%Z 100000 3000 circular_orbit 1); lia.
Defined.

Lemma zero_thrust_keeps_mass_witness : m0 sOut = m0 sB.
Proof.
  apply (@zero_thrust_keeps_mass (@Vec3 RDouble 0 0 0) 1 1 0 0%Z 0%Z
           100000 3000 sB sOut (/ 16));
    [reflexivity|reflexivity|reflexivity|lra|].
  left. exact (proj1 (@runB_call 100000 3000 ltac:(lia) ltac:(lia))).
Defined.

Lemma step_mirrors_duration_witness :
  exists s2,
    propagate_taylor_J2_step sB (- / 16) 1 (Vec3 0 0 0) 1 1 0 2
      (eps_a (DBL := RDouble) 0) (eps_r (DBL := RDouble) 0)
      (repeat dumb 2) (repeat dumb2 1) = Some (- / 16, s2).
Proof.
  apply (@step_mirrors_duration sB sOut (/ 16) (/ 16) 1%Z
           (@Vec3 RDouble 0 0 0) 1 1 0 2
           (eps_a (DBL := RDouble) 0) (eps_r (DBL := RDouble) 0)
           (repeat dumb 2) (repeat dumb2 1)).
  exact runB_step.
Defined.

Lemma position_follows_velocity_witness :
  let X := fst (taylor_coefficients (DBL := RDouble) 0 0 0 1 1 0 1
                  (init_x sB (repeat dumb 2), repeat dumb2 1)) in
  get X 1 0 = @dlit RDouble 1 / of_nat 1 * get X 0 3 /\
  get X 1 1 = @dlit RDouble 1 / of_nat 1 * get X 0 4 /\
  get X 1 2 = @dlit RDouble 1 / of_nat 1 * get X 0 5.
Proof.
  apply (@position_follows_velocity RDouble 0 0 0 1 1 0 1 0
           (init_x sB (repeat dumb 2)) (repeat dumb2 1)).
  - lia.
  - intros i Hi. rewrite init_x_row_length.
    destruct i as [|[|i]]; [reflexivity|reflexivity|lia].
  - intros i Hi. destruct i as [|i]; [reflexivity|lia].
Defined.

Lemma equatorial_motion_stays_equatorial_witness :
  c2 (r0 sOut) = 0 /\ c2 (v0 sOut) = 0.
Proof.
  apply (@equatorial_motion_stays_equatorial 0 0 1 1 0 0%Z 0%Z
           100000 3000 sB sOut (/ 16)); [reflexivity|reflexivity|].
  left. exact (proj1 (@runB_call 100000 3000 ltac:(lia) ltac:(lia))).
Defined.

Lemma step_ignores_scratch_x_witness :
  propagate_taylor_J2_step sB (/ 16) 1 (Vec3 0 0 0) 1 1 0 2
    (eps_a (DBL := RDouble) 0) (eps_r (DBL := RDouble) 0)
    (repeat dumb 2) (repeat dumb2 1)
  = propagate_taylor_J2_step sB (/ 16) 1 (Vec3 0 0 0) 1 1 0 2
      (eps_a (DBL := RDouble) 0) (eps_r (DBL := RDouble) 0)
      (repeat (repeat 1 7) 2) (repeat dumb2 1).
Proof.
  apply (@step_ignores_scratch_x RDouble sB (/ 16) 1%Z (@Vec3 RDouble 0 0 0)
           1 1 0 2 (eps_a (DBL := RDouble) 0) (eps_r (DBL := RDouble) 0)
           (repeat dumb 2) (repeat (repeat 1 7) 2) (repeat dumb2 1));
    intros i Hi; (destruct i as [|[|i]]; [reflexivity|reflexivity|lia]).
Defined.

End Instances.
